(** * Taxi.js: the match engine, the minimum-length gate and the keyboard
      selection controller of the auto-complete widget.

    The development follows [dist/js/Taxi.js] (the class [Taxi] with its
    statics [Taxi.Query], [Taxi.ToHtml], and the handlers [hasMinChar],
    [handleKeyUp], [handleKeyDown]) and the newer class source, whose
    [handleKeyDown] hands navigation to a [KeyHandler] module.

    Strings are sequences of code units.  A code unit is an [ascii], so the
    development covers the strings whose code units are below 256; on those
    [toLowerCase], [trim] and [includes] below are the ECMAScript ones. *)

From Stdlib Require Import ZArith Ascii String.
From stdpp Require Import base list strings gmap.

Local Open Scope Z_scope.

(** ** ECMAScript string primitives *)

Module JsString.

(** Code units A-Z and the Latin-1 capitals (without the multiplication
    sign) are 32 below their lower-case forms. *)
Definition toLowerCase_unit (c : ascii) : ascii :=
  let n := N_of_ascii c in
  if ((65 <=? n) && (n <=? 90))%N
     || ((192 <=? n) && (n <=? 222) && negb (n =? 215))%N
  then ascii_of_N (n + 32) else c.

(** [s.toLowerCase()] *)
Fixpoint toLowerCase (s : string) : string :=
  match s with
  | EmptyString => EmptyString
  | String c s' => String (toLowerCase_unit c) (toLowerCase s')
  end.

(** [s.replace(/ /g, empty)]: every U+0020 is dropped. *)
Fixpoint remove_spaces (s : string) : string :=
  match s with
  | EmptyString => EmptyString
  | String c s' =>
      if Ascii.eqb c " " then remove_spaces s' else String c (remove_spaces s')
  end.

(** White space and line terminators of ECMAScript below 256:
    TAB, LF, VT, FF, CR, SP and NBSP. *)
Definition is_white_space (c : ascii) : bool :=
  let n := N_of_ascii c in
  ((9 <=? n) && (n <=? 13) || (n =? 32) || (n =? 160))%N.

Fixpoint trimStart (s : string) : string :=
  match s with
  | EmptyString => EmptyString
  | String c s' => if is_white_space c then trimStart s' else s
  end.

(** [trimEnd] keeps a code unit when it is no white space or when something
    is left after it. *)
Fixpoint trimEnd (s : string) : string :=
  match s with
  | EmptyString => EmptyString
  | String c s' =>
      match trimEnd s' with
      | EmptyString => if is_white_space c then EmptyString else String c EmptyString
      | t => String c t
      end
  end.

(** [s.trim()] *)
Definition trim (s : string) : string := trimEnd (trimStart s).

(** [s.includes(searchString)]: [searchString] starts at some position of [s]. *)
Fixpoint includes (s searchString : string) : bool :=
  String.prefix searchString s
  || match s with
     | EmptyString => false
     | String _ s' => includes s' searchString
     end.

(** [parts.join(sep)] on an array of strings. *)
Fixpoint join (sep : string) (parts : list string) : string :=
  match parts with
  | [] => EmptyString
  | [p] => p
  | p :: rest => p +:+ sep +:+ join sep rest
  end.

(** [arr.join] with the empty separator on an array of single code units,
    where [undefined] entries contribute nothing. *)
Fixpoint join_units (parts : list (option ascii)) : string :=
  match parts with
  | [] => EmptyString
  | Some c :: rest => String c (join_units rest)
  | None :: rest => join_units rest
  end.

End JsString.

Import JsString.

(** ** Values a query callback hands to [Array.prototype.filter] *)

Inductive JsValue :=
| JsBoolean (b : bool)
| JsString (s : string)
| JsUndefined.

(** ToBoolean: the empty string and [undefined] are falsy. *)
Definition truthy (v : JsValue) : bool :=
  match v with
  | JsBoolean b => b
  | JsString s => negb (String.eqb s EmptyString)
  | JsUndefined => false
  end.

(** ** Taxi.Query *)

Module Query.

(** [strict: (record, query) => record.toLowerCase().includes(query.toLowerCase())] *)
Definition strict (record query : string) : JsValue :=
  JsBoolean (includes (toLowerCase record) (toLowerCase query)).

(** State of the scan of [fuzzy]: [searchPosition] and the array [match]. *)
Record Scan := { searchPosition : nat; matched : list (option ascii) }.

(** One round of the [for] body at index [number]. *)
Definition fuzzy_body (record recordLowerCase query : string)
    (number : nat) (st : Scan) : Scan :=
  let recordChar := String.get number record in
  let sp :=
    if (searchPosition st <? String.length query)%nat
       && bool_decide (String.get number recordLowerCase
                       = String.get (searchPosition st) query)
    then S (searchPosition st) else searchPosition st in
  {| searchPosition := sp; matched := matched st ++ [recordChar] |}.

(** [for (let number = ...; number < recordLowerCase.length; number++)] *)
Fixpoint fuzzy_for (fuel : nat) (record recordLowerCase query : string)
    (number : nat) (st : Scan) : Scan :=
  match fuel with
  | O => st
  | S fuel' =>
      if (number <? String.length recordLowerCase)%nat
      then fuzzy_for fuel' record recordLowerCase query (S number)
             (fuzzy_body record recordLowerCase query number st)
      else st
  end.

(** [fuzzy]: a function that falls off its end returns [undefined]. *)
Definition fuzzy (record query : string) : JsValue :=
  let recordLowerCase := toLowerCase record in
  let query := remove_spaces (toLowerCase query) in
  let st := fuzzy_for (String.length recordLowerCase) record recordLowerCase
              query 0 {| searchPosition := 0; matched := [] |} in
  if (searchPosition st =? String.length query)%nat
  then JsString (join_units (matched st)) else JsUndefined.

End Query.

(** ** The display surface

    A rendered item is a child element of the display element together with
    the elements below it, in document order.  Of an element the handlers
    read and write the class list and the [value] attribute only. *)

Module Dom.

Record Element := {
  classList : list string;
  value_attribute : option string
}.

Record Item := {
  item_element : Element;
  descendants : list Element
}.

(** A node of the display is known by its place: the [i]-th child, or the
    [j]-th element below the [i]-th child. *)
Inductive NodeRef :=
| ChildRef (i : nat)
| DescendantRef (i j : nat).

Global Instance NodeRef_eq_dec : EqDecision NodeRef.
Proof. solve_decision. Defined.

(** [classList.contains(token)] *)
Definition contains (token : string) (cl : list string) : bool :=
  bool_decide (token ∈ cl).

(** [classList.toggle(token)]: removes the token when present, adds it
    otherwise. *)
Definition toggle (token : string) (cl : list string) : list string :=
  if contains token cl
  then List.filter (fun c => negb (String.eqb c token)) cl
  else cl ++ [token].

Definition is_selected : string := "is-selected".

Definition toggle_selected (e : Element) : Element :=
  {| classList := toggle is_selected (classList e);
     value_attribute := value_attribute e |}.

(** The element matches the selector [.is-selected]. *)
Definition matches_selected (e : Element) : bool :=
  contains is_selected (classList e).

Definition node_at (children : list Item) (r : NodeRef) : option Element :=
  match r with
  | ChildRef i => item_element <$> children !! i
  | DescendantRef i j => children !! i ≫= fun it => descendants it !! j
  end.

Definition update_item (f : Element -> Element) (it : Item) : Item :=
  {| item_element := f (item_element it); descendants := descendants it |}.

Definition update_descendant (j : nat) (f : Element -> Element) (it : Item) : Item :=
  {| item_element := item_element it; descendants := alter f j (descendants it) |}.

(** In-place update of the element at [r]. *)
Definition update_node (f : Element -> Element) (r : NodeRef)
    (children : list Item) : list Item :=
  match r with
  | ChildRef i => alter (update_item f) i children
  | DescendantRef i j => alter (update_descendant j f) i children
  end.

(** All elements below the display, in document order; [k] is the index of
    the first child of the list. *)
Fixpoint nodes_from (k : nat) (children : list Item) : list NodeRef :=
  match children with
  | [] => []
  | it :: rest =>
      (ChildRef k :: (DescendantRef k <$> seq 0 (length (descendants it))))
      ++ nodes_from (S k) rest
  end.

Definition marked (children : list Item) (r : NodeRef) : bool :=
  match node_at children r with
  | Some e => matches_selected e
  | None => false
  end.

(** [taxi.querySelectorAll(".is-selected")] *)
Definition querySelectorAll (children : list Item) : list NodeRef :=
  List.filter (marked children) (nodes_from 0 children).

(** [taxi.querySelector(".is-selected")]: the first match, or [null]. *)
Definition querySelector (children : list Item) : option NodeRef :=
  head (querySelectorAll children).

(** [[...children].indexOf(selected)], scanning from index [k]. *)
Fixpoint indexOf_from (k : nat) (children : list Item)
    (selected : option NodeRef) : Z :=
  match children with
  | [] => -1
  | _ :: rest =>
      if bool_decide (selected = Some (ChildRef k)) then Z.of_nat k
      else indexOf_from (S k) rest selected
  end.

Definition indexOf := indexOf_from 0.

(** [children[index]]: [undefined] outside the collection. *)
Definition child_at (children : list Item) (index : Z) : option Item :=
  if index <? 0 then None else children !! Z.to_nat index.

(** [el.getAttribute("value")] of the node at [r]. *)
Definition getAttribute_value (children : list Item) (r : NodeRef) : option string :=
  node_at children r ≫= value_attribute.

(** LF or CR. *)
Definition is_newline (c : ascii) : bool :=
  let n := N_of_ascii c in ((n =? 10) || (n =? 13))%N.

(** The value sanitization of a text input: LF and CR are stripped. *)
Fixpoint strip_newlines (s : string) : string :=
  match s with
  | EmptyString => EmptyString
  | String c s' =>
      if is_newline c then strip_newlines s' else String c (strip_newlines s')
  end.

(** The string holds neither LF nor CR. *)
Fixpoint single_line (s : string) : bool :=
  match s with
  | EmptyString => true
  | String c s' => negb (is_newline c) && single_line s'
  end.

(** Assigning to [input.value] on a text input: [null] becomes the empty
    string, and the input stores the assigned string without its LF and CR. *)
Definition to_input_value (v : option string) : string :=
  strip_newlines (default EmptyString v).

End Dom.

Import Dom.

(** ** Taxi.ToHtml *)

Module ToHtml.

Definition quote : string := String (ascii_of_nat 34) EmptyString.
Definition LF : string := String (ascii_of_nat 10) EmptyString.

(** [classic]: the card of [dist/js/Taxi.js], the entry in its [value]
    attribute and in its label. *)
Definition classic (entry : string) : string :=
  "<div class=" +:+ quote +:+ "taxi-card" +:+ quote
    +:+ " value=" +:+ quote +:+ entry +:+ quote +:+ ">" +:+ LF
    +:+ "        <strong>" +:+ entry +:+ "</strong>" +:+ LF
    +:+ "      </div>".

End ToHtml.

(** ** The widget *)

(** [TaxiOptions]: the fields the handlers read. *)
Record TaxiOptions := {
  data : list string;
  query : string -> string -> JsValue;
  toHtml : string -> string;
  minChar : Z
}.

Definition TaxiOptionsDefaults : TaxiOptions :=
  {| data := ["Volkwagen"; "Mercedes"; "Daimler"];
     query := Query.strict;
     toHtml := ToHtml.classic;
     minChar := 1 |}.

(** A [Taxi] instance: [this.input.value], [this.taxi.children] and
    [this.options]. *)
Record Taxi := {
  input_value : string;
  children : list Item;
  options : TaxiOptions
}.

(** A keyboard event dispatched on the input, so that [e.target] is
    [this.input]. *)
Record Event := { which : Z }.

(** [this.actionCodes] *)
Definition actionCodes : list Z := [40; 38; 9; 13].

(** [codes.includes(which)] *)
Definition includes_code (codes : list Z) (code : Z) : bool :=
  existsb (Z.eqb code) codes.

Inductive Completion := Normal | TypeError.

(** What a handler leaves behind: the instance, whether [e.preventDefault()]
    ran, and how the handler completed. *)
Record Outcome := {
  after : Taxi;
  defaultPrevented : bool;
  completion : Completion
}.

(** [hasMinChar] *)
Definition hasMinChar (t : Taxi) : bool :=
  if minChar (options t) =? 0 then true
  else if Z.of_nat (String.length (trim (input_value t))) >=? minChar (options t)
       then true
       else false.

(** [const next = current + 1 < max ? current + 1 : current] *)
Definition next_index (current max : Z) : Z :=
  if current + 1 <? max then current + 1 else current.

(** [const prev = current - 1 > 0 ? current - 1 : 0] *)
Definition prev_index (current : Z) : Z :=
  if current - 1 >? 0 then current - 1 else 0.

(** The filter pass of [handleKeyUp]:
    [copy.filter(entry => this.options.query(entry, value))]. *)
Definition filtered (o : TaxiOptions) (value : string) : list string :=
  let copy := data o in
  List.filter (fun entry => truthy (query o entry value)) copy.

(** [nodes.forEach(i => i.classList.toggle("is-selected"))] *)
Definition toggles (children : list Item) (nodes : list NodeRef) : list Item :=
  foldl (fun ch r => update_node toggle_selected r ch) children nodes.

(** [this.taxi.querySelectorAll(".is-selected").forEach(i => i.classList.toggle("is-selected"))] *)
Definition clean_up (children : list Item) : list Item :=
  toggles children (querySelectorAll children).

Definition set_children (t : Taxi) (ch : list Item) : Taxi :=
  {| input_value := input_value t; children := ch; options := options t |}.

(** [this.input.value = v] *)
Definition set_input_value (t : Taxi) (v : option string) : Taxi :=
  {| input_value := to_input_value v; children := children t; options := options t |}.

Section Widget.

(** The browser's HTML parser: the children a markup string produces. *)
Variable parseHTML : string -> list Item.

(** [this.taxi.innerHTML = html]: the children are replaced wholesale, and
    the empty string leaves none. *)
Definition set_innerHTML (t : Taxi) (html : string) : Taxi :=
  {| input_value := input_value t;
     children := if decide (html = EmptyString) then [] else parseHTML html;
     options := options t |}.

(** [handleKeyUp]; the click listeners it attaches hold no state of their
    own. *)
Definition handleKeyUp (t : Taxi) (e : Event) : Taxi :=
  if negb (hasMinChar t) then set_innerHTML t EmptyString
  else
    let value := input_value t in
    let isActionCode := includes_code actionCodes (which e) in
    if isActionCode then t
    else
      let html := join ToHtml.LF (map (toHtml (options t)) (filtered (options t) value)) in
      set_innerHTML t html.

(** [children[index].classList.toggle("is-selected")], after
    [e.preventDefault()]. *)
Definition toggle_child (t : Taxi) (index : Z) : Outcome :=
  match child_at (children t) index with
  | None => {| after := t; defaultPrevented := true; completion := TypeError |}
  | Some _ =>
      {| after := set_children t
                    (update_node toggle_selected (ChildRef (Z.to_nat index)) (children t));
         defaultPrevented := true; completion := Normal |}
  end.

(** The navigation of [handleKeyDown] in [dist/js/Taxi.js], from
    [e.preventDefault()] to the end of the [switch]: the selection
    controller. *)
Definition navigate (t : Taxi) (e : Event) : Outcome :=
  let max := Z.of_nat (length (children t)) in
  let selected := querySelector (children t) in
  let t1 := set_children t (clean_up (children t)) in
  let current := indexOf (children t1) selected in
  let next := next_index current max in
  let prev := prev_index current in
  if which e =? 40 then toggle_child t1 next
  else if which e =? 38 then toggle_child t1 prev
  else if which e =? 9 then toggle_child t1 next
  else if which e =? 13 then
    match selected with
    | None => {| after := t1; defaultPrevented := true; completion := Normal |}
    | Some r =>
        let t2 := set_input_value t1 (getAttribute_value (children t1) r) in
        {| after := set_innerHTML t2 EmptyString;
           defaultPrevented := true; completion := Normal |}
    end
  else {| after := t1; defaultPrevented := true; completion := Normal |}.

(** [handleKeyDown] of [dist/js/Taxi.js]: the gate, the action codes, then
    the navigation. *)
Definition handleKeyDown (t : Taxi) (e : Event) : Outcome :=
  if negb (hasMinChar t)
  then {| after := set_innerHTML t EmptyString;
          defaultPrevented := false; completion := Normal |}
  else
    let isActionCode := includes_code actionCodes (which e) in
    if negb isActionCode
    then {| after := t; defaultPrevented := false; completion := Normal |}
    else navigate t e.

(** [handleKeyDown] of the class source: the key is looked up in the
    [KeyHandler] module first, and the navigation is [KeyHandler.handle]. *)
Section KeyHandler.

Variable KeyHandler_has : Z -> bool.
Variable KeyHandler_handle : Taxi -> Event -> Outcome.

Definition handleKeyDown_class (t : Taxi) (e : Event) : Outcome :=
  if negb (KeyHandler_has (which e))
  then {| after := t; defaultPrevented := false; completion := Normal |}
  else if negb (hasMinChar t)
  then {| after := set_innerHTML t EmptyString;
          defaultPrevented := false; completion := Normal |}
  else
    let o := KeyHandler_handle t e in
    {| after := after o; defaultPrevented := true; completion := completion o |}.

End KeyHandler.

End Widget.

(** ** The states of the selection controller *)

(** No element of the display carries the marker. *)
Definition Idle (t : Taxi) : Prop := querySelectorAll (children t) = [].

(** The [i]-th rendered item, and no other element, carries the marker. *)
Definition Highlighted (t : Taxi) (i : nat) : Prop :=
  querySelectorAll (children t) = [ChildRef i].

(** The code's [current]: the index of the selected child, or -1. *)
Definition selectionIndex (t : Taxi) : Z :=
  indexOf (children t) (querySelector (children t)).

Definition keydown (code : Z) : Event := {| which := code |}.

(** [n] presses of the same key, one after the other, as the selection
    controller sees them. *)
Fixpoint presses (parseHTML : string -> list Item) (code : Z) (n : nat) (t : Taxi) : Taxi :=
  match n with
  | O => t
  | S n' => presses parseHTML code n' (after (navigate parseHTML t (keydown code)))
  end.

(** [n] keydown events of the same key, one after the other, through the
    handler. *)
Fixpoint keydowns (parseHTML : string -> list Item) (code : Z) (n : nat) (t : Taxi) : Taxi :=
  match n with
  | O => t
  | S n' => keydowns parseHTML code n' (after (handleKeyDown parseHTML t (keydown code)))
  end.

(** ** What the specification says of the match engine *)

(** The code units of [q] appear in [s] in order, not necessarily next to
    each other. *)
Definition subsequence (q s : string) : Prop :=
  String.list_ascii_of_string q `sublist_of` String.list_ascii_of_string s.

(** [q] occurs in [s] as a contiguous block. *)
Definition substring_of (q s : string) : Prop :=
  exists pre post, s = pre +:+ q +:+ post.

(** [R] is [D] with exactly the elements satisfying [P] kept, each occurrence
    in its place. *)
Inductive kept_in_order {A} (P : A -> Prop) : list A -> list A -> Prop :=
| kept_nil : kept_in_order P [] []
| kept_keep x D R : P x -> kept_in_order P D R -> kept_in_order P (x :: D) (x :: R)
| kept_drop x D R : ~ P x -> kept_in_order P D R -> kept_in_order P (x :: D) R.

(** How many leading code units of [q] a left-to-right scan of [s] finds, each
    after the one before: the value of [searchPosition] when the scan of
    [fuzzy] ends. *)
Fixpoint greedy (s q : list ascii) : nat :=
  match s, q with
  | [], _ => O
  | _ :: _, [] => O
  | c :: s', d :: q' =>
      if decide (c = d) then S (greedy s' q') else greedy s' q
  end.

(** ** A rendered list to run the handlers on *)

Module Sample.

(** The element tree of a [classic] card: the card with its [value]
    attribute and the label below it. *)
Definition card (v : string) : Item :=
  {| item_element := {| classList := ["taxi-card"]; value_attribute := Some v |};
     descendants := [{| classList := []; value_attribute := None |}] |}.

Fixpoint until_quote (s : string) : string :=
  match s with
  | EmptyString => EmptyString
  | String c s' =>
      if Ascii.eqb c (ascii_of_nat 34) then EmptyString else String c (until_quote s')
  end.

(** A stand-in for the browser's parser that is enough for [classic]
    markup: one card for every [value] attribute. *)
Fixpoint parse (html : string) : list Item :=
  match html with
  | EmptyString => []
  | String c rest =>
      if String.prefix ("value=" +:+ ToHtml.quote) html
      then card (until_quote (String.substring 7 (String.length html) html)) :: parse rest
      else parse rest
  end.

(** The three default records on display, nothing highlighted. *)
Definition rendered : Taxi :=
  {| input_value := "e";
     children := [card "Volkwagen"; card "Mercedes"; card "Daimler"];
     options := TaxiOptionsDefaults |}.

(** The same with the marker on the [i]-th card. *)
Definition selected (i : nat) : Taxi :=
  set_children rendered
    (update_node toggle_selected (ChildRef i) (children rendered)).

(** An empty display under a passing gate. *)
Definition empty : Taxi := set_children rendered [].

(** Two characters typed where three are asked for. *)
Definition short : Taxi :=
  {| input_value := "vo";
     children := children rendered;
     options := {| data := data TaxiOptionsDefaults;
                   query := Query.strict;
                   toHtml := ToHtml.classic;
                   minChar := 3 |} |}.

End Sample.

(** ** The click listener *)

(** The listener [injectOnClicKListeners] attaches to every child of the
    display.  [target] is [e.target], the element the click landed on: the
    child itself or an element below it, whose click bubbles up to the child. *)
Definition onClick (parseHTML : string -> list Item) (t : Taxi) (target : NodeRef) : Taxi :=
  let t1 := set_input_value t (getAttribute_value (children t) target) in
  set_innerHTML parseHTML t1 EmptyString.

(** ** injectTaxiOptions

    An object is known by its own properties, a finite map from property
    names to values, and by its prototype.  The merge never looks into a
    value, except that the setter of [__proto__] asks whether the value is an
    object or null.  Objects among the values are taken to hold writable data
    properties only, as object literals and JSON.parse build them, so that a
    prototype set on the way does not intercept a later assignment. *)

Definition proto_key : string := "__proto__".

Section InjectTaxiOptions.

Context {V : Type}.

(** The value is an object or null: what the [__proto__] setter of
    [Object.prototype] takes as a new prototype. *)
Variable accepts_as_prototype : V -> bool.

(** [prototype = None] is [Object.prototype], where a fresh object starts;
    [Some v] is the prototype the setter has put in its place. *)
Record JsObject := {
  own_properties : gmap string V;
  prototype : option V
}.

(** [Object.keys(options)] *)
Definition Object_keys (options : gmap string V) : list string :=
  (map_to_list options).*1.

(** The assignment reaches the [__proto__] accessor of [Object.prototype]:
    the key is [__proto__] and the object has no own property of that name. *)
Definition reaches_proto_setter (injectedOptions : JsObject) (key : string) : bool :=
  bool_decide (key = proto_key)
  && negb (bool_decide (is_Some (own_properties injectedOptions !! key))).

(** [injectedOptions[key] = options[key]], for a key of [options]: the
    assignment writes an own property, but for [__proto__] it runs the
    inherited setter, which creates no property and replaces the prototype
    when the value is an object or null. *)
Definition assign_key (options : gmap string V) (injectedOptions : JsObject)
    (key : string) : JsObject :=
  match options !! key with
  | Some v =>
      if reaches_proto_setter injectedOptions key
      then if accepts_as_prototype v
           then {| own_properties := own_properties injectedOptions;
                   prototype := Some v |}
           else injectedOptions
      else {| own_properties := <[key := v]> (own_properties injectedOptions);
              prototype := prototype injectedOptions |}
  | None => injectedOptions
  end.

(** [injectTaxiOptions]: the object it leaves in [this.options]; [None] is a
    call without options. *)
Definition injectTaxiOptions (defaults : gmap string V)
    (options : option (gmap string V)) : JsObject :=
  let injectedOptions := {| own_properties := defaults; prototype := None |} in
  match options with
  | Some o => foldl (assign_key o) injectedOptions (Object_keys o)
  | None => injectedOptions
  end.

End InjectTaxiOptions.

(** [el'] is [el] up to the [is-selected] token: the same [value] attribute
    and the same other class tokens. *)
Definition same_but_marker (el el' : Element) : Prop :=
  value_attribute el' = value_attribute el
  /\ forall token, token <> is_selected ->
       contains token (classList el') = contains token (classList el).

(** The input holds white space only. *)
Fixpoint blank (s : string) : bool :=
  match s with
  | EmptyString => true
  | String c s' => is_white_space c && blank s'
  end.

(** A key press as the input sees it: the keydown, then the keyup of the same
    key. *)
Definition keypress (parseHTML : string -> list Item) (t : Taxi) (e : Event) : Taxi :=
  handleKeyUp parseHTML (after (handleKeyDown parseHTML t e)) e.

(** Option objects to run the merge on. *)
Module SampleOptions.

(** Values of option objects: numbers and objects. *)
Inductive Val := Num (n : Z) | Obj (name : string).

Definition is_obj (v : Val) : bool :=
  match v with Obj _ => true | Num _ => false end.

Definition defaults : gmap string Val :=
  <["minChar" := Num 1]> (<["showWarnings" := Num 1]> ∅).

Definition given : gmap string Val :=
  <["minChar" := Num 3]> (<["devOps" := Num 0]> ∅).

(** Options as JSON.parse makes them of a text with a [__proto__] member. *)
Definition with_proto : gmap string Val :=
  <[proto_key := Obj "other"]> given.

(** The default options with the [fuzzy] query and an empty record among the
    data. *)
Definition fuzzy : TaxiOptions :=
  {| data := ["Volkwagen"; ""; "Mercedes"; "Daimler"];
     query := Query.fuzzy;
     toHtml := ToHtml.classic;
     minChar := 1 |}.

Definition strict : TaxiOptions :=
  {| data := data fuzzy;
     query := Query.strict;
     toHtml := ToHtml.classic;
     minChar := 1 |}.

End SampleOptions.

(** Displays and inputs off the beaten track. *)
Module SampleDisplays.

(** White space typed into the input over the rendered list. *)
Definition blank_input : Taxi :=
  {| input_value := "   ";
     children := children Sample.rendered;
     options := TaxiOptionsDefaults |}.

(** A value of two lines. *)
Definition two_lines : string := "a" +:+ ToHtml.LF +:+ "b".

(** One highlighted card that carries the value of two lines. *)
Definition two_lines_selected : Taxi :=
  {| input_value := "a";
     children := update_node toggle_selected (ChildRef 0) [Sample.card two_lines];
     options := TaxiOptionsDefaults |}.

(** A card whose label, not the card itself, carries the marker. *)
Definition label_marked (v : string) : Item :=
  {| item_element := {| classList := ["taxi-card"]; value_attribute := Some v |};
     descendants := [{| classList := [is_selected]; value_attribute := None |}] |}.

(** The rendered list with markers on the label of the second card and on
    the third card. *)
Definition stray_markers : Taxi :=
  {| input_value := "e";
     children := [Sample.card "Volkwagen"; label_marked "Mercedes";
                  {| item_element := {| classList := ["taxi-card"; is_selected];
                                        value_attribute := Some "Daimler" |};
                     descendants := [] |}];
     options := TaxiOptionsDefaults |}.

End SampleDisplays.

(** * Strings *)

Section StringFacts.

Local Open Scope nat_scope.

Lemma get_lookup s n :
  String.get n s = String.list_ascii_of_string s !! n.
Proof.
  revert n. induction s as [|c s IH]; intros [|n]; simpl; auto.
Qed.

Lemma length_chars s :
  String.length s = length (String.list_ascii_of_string s).
Proof. induction s; simpl; auto. Qed.

Lemma toLowerCase_length s :
  String.length (toLowerCase s) = String.length s.
Proof. induction s; simpl; auto. Qed.

Lemma prefix_spec q s :
  String.prefix q s = true <-> exists post, s = q +:+ post.
Proof.
  revert s. induction q as [|c q IH]; intros s.
  - split; [intros _; exists s; reflexivity|by destruct s].
  - destruct s as [|d s]; cbn [String.prefix].
    + split; [done|]. intros [post H]. discriminate H.
    + destruct (ascii_dec c d) as [->|Hne].
      * rewrite IH. split; intros [post H]; exists post.
        -- change (String d s = String d (q +:+ post)). by rewrite H.
        -- change (String d s = String d (q +:+ post)) in H. by injection H.
      * split; [done|]. intros [post H].
        change (String d s = String c (q +:+ post)) in H. congruence.
Qed.

Lemma includes_spec s q : includes s q = true <-> substring_of q s.
Proof.
  unfold substring_of. induction s as [|c s IH]; cbn [includes].
  - rewrite orb_false_r, prefix_spec. split.
    + intros [post H]. by exists EmptyString, post.
    + intros [[|x pre] [post H]]; [by exists post|discriminate H].
  - rewrite orb_true_iff, prefix_spec, IH. split.
    + intros [[post H]|(pre & post & H)].
      * by exists EmptyString, post.
      * exists (String c pre), post.
        change (String c s = String c (pre +:+ q +:+ post)). by rewrite H.
    + intros ([|x pre] & post & H).
      * left. by exists post.
      * right. exists pre, post.
        change (String c s = String x (pre +:+ q +:+ post)) in H. by injection H.
Qed.

Lemma trimStart_length s : String.length (trimStart s) <= String.length s.
Proof.
  induction s as [|c s IH]; simpl; [done|].
  destruct (is_white_space c); simpl; lia.
Qed.

Lemma trimEnd_length s : String.length (trimEnd s) <= String.length s.
Proof.
  induction s as [|c s IH]; simpl; [done|].
  destruct (trimEnd s) as [|d t].
  - destruct (is_white_space c); simpl; lia.
  - simpl in *. lia.
Qed.

Lemma trim_length s : String.length (trim s) <= String.length s.
Proof.
  unfold trim. etrans; [apply trimEnd_length|apply trimStart_length].
Qed.

(** The sanitization leaves a string without line breaks as it is. *)
Lemma strip_newlines_single_line s :
  single_line s = true -> strip_newlines s = s.
Proof.
  induction s as [|c s IH]; simpl; [done|].
  destruct (is_newline c); simpl; [done|]. intros H. by rewrite IH.
Qed.

(** Reading a string unit by unit and joining the units gives it back. *)
Lemma join_units_get s :
  join_units (map (fun i => String.get i s) (seq 0 (String.length s))) = s.
Proof.
  induction s as [|c s IH]; simpl; [done|].
  rewrite <- seq_shift, map_map. simpl. by rewrite IH.
Qed.

End StringFacts.

(** * The scan of [fuzzy] *)

Section FuzzyScan.

Local Open Scope nat_scope.

Lemma greedy_nil_r s : greedy s [] = 0.
Proof. by destruct s. Qed.

(** The scan finds all of [q] exactly when [q] is a subsequence of [s]. *)
Lemma greedy_sublist s q : greedy s q = length q <-> q `sublist_of` s.
Proof.
  revert q. induction s as [|c s IH]; intros q.
  - simpl. rewrite sublist_nil_r. destruct q; simpl; split; congruence.
  - destruct q as [|d q]; simpl.
    { split; [intros _; apply sublist_nil_l|done]. }
    case_decide as Hcd.
    + subst d. split.
      * intros H. apply sublist_skip, IH. lia.
      * intros H. f_equal. apply IH.
        apply sublist_cons_r in H as [H|(q' & Hq & H)].
        -- etrans; [|exact H]. by apply sublist_cons.
        -- by injection Hq as ->.
    + rewrite (IH (d :: q)). split.
      * apply sublist_cons.
      * intros H. apply sublist_cons_r in H as [H|(q' & Hq & H)]; [done|].
        congruence.
Qed.

Lemma fuzzy_for_spec record rl q fuel : forall number st,
  number + fuel = String.length rl ->
  Query.searchPosition st <= String.length q ->
  Query.fuzzy_for fuel record rl q number st =
    {| Query.searchPosition :=
         Query.searchPosition st
         + greedy (drop number (String.list_ascii_of_string rl))
                  (drop (Query.searchPosition st) (String.list_ascii_of_string q));
       Query.matched :=
         Query.matched st ++ map (fun i => String.get i record) (seq number fuel) |}.
Proof.
  induction fuel as [|fuel IH]; intros number [sp m] Hlen Hsp; simpl in *.
  - rewrite drop_ge by (rewrite <- length_chars; lia).
    simpl. f_equal; [lia|by rewrite app_nil_r].
  - assert (Hlt : number < String.length rl) by lia.
    apply Nat.ltb_lt in Hlt as Hltb. rewrite Hltb.
    rewrite length_chars in Hlt.
    destruct (lookup_lt_is_Some_2 _ _ Hlt) as [c Hc].
    rewrite (drop_S _ _ _ Hc).
    rewrite IH; unfold Query.fuzzy_body; simpl; [|lia|].
    + rewrite !get_lookup, Hc. f_equal; [|by rewrite <- app_assoc].
      destruct (sp <? String.length q) eqn:Hq; simpl.
      * apply Nat.ltb_lt in Hq. rewrite length_chars in Hq.
        destruct (lookup_lt_is_Some_2 _ _ Hq) as [d Hd].
        rewrite Hd, (drop_S _ _ _ Hd). simpl.
        case_bool_decide as Heq; case_decide as Hcd; try congruence; simpl;
          [lia|by rewrite (drop_S _ _ _ Hd)].
      * apply Nat.ltb_ge in Hq.
        rewrite (drop_ge (String.list_ascii_of_string q))
          by (rewrite <- length_chars; lia).
        by rewrite !greedy_nil_r.
    + destruct (sp <? String.length q) eqn:Hq; simpl; [|lia].
      apply Nat.ltb_lt in Hq. case_bool_decide; lia.
Qed.

(** [fuzzy] in one step: the scan decides, and the array [match] spells the
    record. *)
Lemma fuzzy_greedy record query :
  Query.fuzzy record query =
    if decide (greedy (String.list_ascii_of_string (toLowerCase record))
                 (String.list_ascii_of_string (remove_spaces (toLowerCase query)))
               = String.length (remove_spaces (toLowerCase query)))
    then JsString record else JsUndefined.
Proof.
  unfold Query.fuzzy.
  rewrite fuzzy_for_spec by (simpl; lia). simpl.
  rewrite !drop_0, toLowerCase_length, join_units_get.
  case_decide as H.
  - rewrite H, Nat.eqb_refl. done.
  - apply Nat.eqb_neq in H. by rewrite H.
Qed.

End FuzzyScan.

(** * The filter pass *)

Section FilterPass.

Context {A : Type} (f : A -> bool) (P : A -> Prop).
Hypothesis f_spec : forall x, f x = true <-> P x.

Lemma filter_kept D : kept_in_order P D (List.filter f D).
Proof using f_spec.
  induction D as [|x D IH]; simpl; [constructor|].
  destruct (f x) eqn:Hfx.
  - apply kept_keep; [by apply f_spec|done].
  - apply kept_drop; [|done]. rewrite <- f_spec. congruence.
Qed.

Lemma kept_unique D R : kept_in_order P D R -> R = List.filter f D.
Proof using f_spec.
  induction 1 as [|x D R Hx _ IH|x D R Hx _ IH]; simpl; [done| |].
  - apply f_spec in Hx. rewrite Hx. by f_equal.
  - destruct (f x) eqn:Hfx; [|done]. by apply f_spec in Hfx.
Qed.

Lemma kept_sublist D R : kept_in_order P D R -> R `sublist_of` D.
Proof. induction 1; by constructor. Qed.

Lemma kept_elem_of D R x : kept_in_order P D R -> x ∈ R <-> x ∈ D /\ P x.
Proof.
  induction 1 as [|y D R Hy _ IH|y D R Hy _ IH].
  - rewrite elem_of_nil. tauto.
  - rewrite !elem_of_cons, IH. split; [|tauto].
    intros [->|[??]]; tauto.
  - rewrite elem_of_cons, IH. split; [tauto|].
    intros [[->|?] ?]; tauto.
Qed.

End FilterPass.

(** C6: filtering a dataset with the strict predicate keeps exactly the
    records whose lower-case form contains the lower-case query as a
    substring, every occurrence in its original place: nothing is reordered
    and nothing is deduplicated. *)
Theorem filtered_strict (o : TaxiOptions) (q : string) :
  query o = Query.strict ->
  let P := fun r => substring_of (toLowerCase q) (toLowerCase r) in
  (forall R, kept_in_order P (data o) R <-> R = filtered o q)
  /\ filtered o q `sublist_of` data o
  /\ (forall r, r ∈ filtered o q <-> r ∈ data o /\ P r).
Proof.
  intros Hq P. unfold filtered. rewrite Hq.
  assert (Hspec : forall r, truthy (Query.strict r q) = true <-> P r).
  { intros r. unfold Query.strict, P. simpl. apply includes_spec. }
  pose proof (filter_kept _ _ Hspec (data o)) as Hkept.
  split; [|split].
  - intros R. split; [apply (kept_unique _ _ Hspec)|by intros ->].
  - by apply (kept_sublist P).
  - intros r. by apply kept_elem_of.
Qed.

(** C5: [fuzzy] succeeds exactly when the lower-case query without its
    spaces is a subsequence of the lower-case record; on success it returns
    the record as it was given, on failure [undefined]; a query that is empty
    once its spaces are gone succeeds on every record. *)
Theorem fuzzy_subsequence (s q : string) :
  let q' := remove_spaces (toLowerCase q) in
  (subsequence q' (toLowerCase s) <-> Query.fuzzy s q = JsString s)
  /\ (~ subsequence q' (toLowerCase s) <-> Query.fuzzy s q = JsUndefined)
  /\ (q' = EmptyString -> Query.fuzzy s q = JsString s).
Proof.
  intros q'. rewrite fuzzy_greedy. fold q'. unfold subsequence.
  rewrite <- greedy_sublist, <- length_chars.
  case_decide as H.
  - split; [tauto|]. split; [|done]. split; [tauto|discriminate].
  - split; [split; [tauto|discriminate]|]. split; [tauto|].
    intros Hq. exfalso. apply H. by rewrite Hq, greedy_nil_r.
Qed.

Lemma filtered_strict_witness :
  filtered TaxiOptionsDefaults "ME" = ["Mercedes"]
  /\ (forall r, r ∈ ["Mercedes"] -> substring_of "me" (toLowerCase r)).
Proof.
  destruct (filtered_strict TaxiOptionsDefaults "ME" eq_refl) as (_ & _ & H).
  split; [reflexivity|]. intros r Hr. by apply (H r).
Defined.

Lemma fuzzy_subsequence_witness :
  Query.fuzzy "Volkswagen" "vw" = JsString "Volkswagen"
  /\ Query.fuzzy "Volkswagen" "wv" = JsUndefined
  /\ Query.fuzzy "Daimler" "  " = JsString "Daimler".
Proof.
  split; [|split].
  - destruct (fuzzy_subsequence "Volkswagen" "vw") as ([H _] & _ & _).
    apply H, greedy_sublist. reflexivity.
  - destruct (fuzzy_subsequence "Volkswagen" "wv") as (_ & [H _] & _).
    apply H. unfold subsequence. rewrite <- greedy_sublist. vm_compute. lia.
  - destruct (fuzzy_subsequence "Daimler" "  ") as (_ & _ & H).
    by apply H.
Defined.

(** * The display surface: nodes, markers and updates *)

Section ListFacts.

Context {A : Type}.

Lemma filter_none (f : A -> bool) l :
  (forall y, y ∈ l -> f y = false) -> List.filter f l = [].
Proof.
  induction l as [|a l IH]; intros H; simpl; [done|].
  rewrite (H a) by apply list_elem_of_here.
  apply IH. intros y Hy. apply H. by apply list_elem_of_further.
Qed.

Lemma filter_only (f : A -> bool) x l :
  NoDup l -> x ∈ l -> (forall y, y ∈ l -> f y = true <-> y = x) ->
  List.filter f l = [x].
Proof.
  induction l as [|a l IH]; intros Hnd Hx H; [by apply elem_of_nil in Hx|].
  apply NoDup_cons in Hnd as [Ha Hnd]. simpl.
  destruct (f a) eqn:Hfa.
  - apply H in Hfa as ->; [|apply list_elem_of_here]. f_equal.
    apply filter_none. intros y Hy.
    destruct (f y) eqn:Hfy; [|done].
    apply H in Hfy; [congruence|by apply list_elem_of_further].
  - apply elem_of_cons in Hx as [->|Hx].
    { rewrite (proj2 (H a (list_elem_of_here _ _))) in Hfa; done. }
    apply IH; [done..|]. intros y Hy. apply H. by apply list_elem_of_further.
Qed.

End ListFacts.

Section DomFacts.

Local Open Scope nat_scope.

Lemma contains_toggle token cl :
  contains token (toggle token cl) = negb (contains token cl).
Proof.
  unfold toggle. destruct (contains token cl) eqn:Hc; simpl.
  - unfold contains. apply bool_decide_eq_false.
    rewrite list_elem_of_In, filter_In. intros [_ H].
    by rewrite String.eqb_refl in H.
  - unfold contains. apply bool_decide_eq_true, elem_of_app. right.
    apply list_elem_of_here.
Qed.

Lemma matches_toggle_selected e :
  matches_selected (toggle_selected e) = negb (matches_selected e).
Proof. apply contains_toggle. Qed.

Lemma length_update_node f r ch : length (update_node f r ch) = length ch.
Proof. destruct r; apply length_alter. Qed.

Lemma nodes_from_alter g i ch : forall k,
  (forall it, length (descendants (g it)) = length (descendants it)) ->
  nodes_from k (alter g i ch) = nodes_from k ch.
Proof.
  revert i. induction ch as [|it ch IH]; intros i k Hg; [done|].
  destruct i as [|i]; simpl.
  - by rewrite Hg.
  - do 2 f_equal. by apply IH.
Qed.

Lemma nodes_from_update f r ch k :
  nodes_from k (update_node f r ch) = nodes_from k ch.
Proof.
  destruct r as [i|i j]; apply nodes_from_alter; intros it; simpl; [done|].
  apply length_alter.
Qed.

Lemma node_at_update f r ch r' :
  node_at (update_node f r ch) r' =
    if decide (r = r') then f <$> node_at ch r' else node_at ch r'.
Proof.
  destruct r as [i|i j], r' as [i'|i' j']; cbn [node_at update_node].
  - destruct (decide (i = i')) as [->|Hne].
    + rewrite decide_True by done. rewrite list_lookup_alter_eq.
      by destruct (ch !! i').
    + rewrite decide_False by congruence. by rewrite list_lookup_alter_ne.
  - rewrite decide_False by congruence.
    destruct (decide (i = i')) as [->|Hne].
    + rewrite list_lookup_alter_eq. by destruct (ch !! i').
    + by rewrite list_lookup_alter_ne.
  - rewrite decide_False by congruence.
    destruct (decide (i = i')) as [->|Hne].
    + rewrite list_lookup_alter_eq. by destruct (ch !! i').
    + by rewrite list_lookup_alter_ne.
  - destruct (decide (i = i')) as [->|Hne].
    + rewrite list_lookup_alter_eq. destruct (ch !! i') as [it|]; simpl.
      * destruct (decide (j = j')) as [->|Hne].
        -- rewrite decide_True by done. apply list_lookup_alter_eq.
        -- rewrite decide_False by congruence. by apply list_lookup_alter_ne.
      * by case_decide.
    + rewrite decide_False by congruence. by rewrite list_lookup_alter_ne.
Qed.

Lemma elem_of_nodes_from ch : forall k r,
  r ∈ nodes_from k ch <->
    match r with
    | ChildRef i => k <= i /\ is_Some (node_at ch (ChildRef (i - k)))
    | DescendantRef i j => k <= i /\ is_Some (node_at ch (DescendantRef (i - k) j))
    end.
Proof.
  induction ch as [|it ch IH]; intros k r.
  - simpl. rewrite elem_of_nil.
    destruct r; simpl; split; try done; intros [_ [? ?]]; done.
  - simpl. rewrite elem_of_cons, elem_of_app, list_elem_of_fmap, IH.
    destruct r as [i|i j]; simpl.
    + split.
      * intros [H|[(x & H & _)|[Hk H]]]; [|done|].
        -- injection H as ->. rewrite Nat.sub_diag. simpl. split; [lia|eauto].
        -- split; [lia|]. replace (i - k) with (S (i - S k)) by lia. done.
      * intros [Hk H]. destruct (decide (i = k)) as [->|Hne]; [by left|].
        right. right. split; [lia|].
        replace (i - k) with (S (i - S k)) in H by lia. done.
    + split.
      * intros [H|[(x & H & Hx)|[Hk H]]]; [done| |].
        -- injection H as -> ->. rewrite Nat.sub_diag. simpl. split; [lia|].
           apply elem_of_seq in Hx. apply lookup_lt_is_Some. lia.
        -- split; [lia|]. replace (i - k) with (S (i - S k)) by lia. done.
      * intros [Hk H]. destruct (decide (i = k)) as [->|Hne].
        -- right. left. exists j. split; [done|].
           rewrite Nat.sub_diag in H. simpl in H.
           apply lookup_lt_is_Some in H. apply elem_of_seq. lia.
        -- right. right. split; [lia|].
           replace (i - k) with (S (i - S k)) in H by lia. done.
Qed.

Lemma elem_of_nodes ch r : r ∈ nodes_from 0 ch <-> is_Some (node_at ch r).
Proof.
  rewrite elem_of_nodes_from. destruct r; rewrite Nat.sub_0_r; split; try tauto;
    intros H; (split; [lia|done]).
Qed.

Lemma NoDup_nodes_from ch : forall k, NoDup (nodes_from k ch).
Proof.
  induction ch as [|it ch IH]; intros k; simpl; [constructor|].
  apply NoDup_cons. split.
  - rewrite elem_of_app, list_elem_of_fmap, elem_of_nodes_from.
    intros [(x & H & _)|[H _]]; [done|lia].
  - apply NoDup_app. split; [|split; [|apply IH]].
    + apply NoDup_fmap_2; [|apply NoDup_seq]. by intros ?? [=].
    + intros r (x & -> & _)%list_elem_of_fmap [H _]%elem_of_nodes_from. lia.
Qed.

End DomFacts.

Section Markers.

Local Open Scope nat_scope.

Lemma marked_update r ch r' :
  marked (update_node toggle_selected r ch) r' =
    if decide (r = r')
    then match node_at ch r' with
         | Some e => negb (matches_selected e)
         | None => false
         end
    else marked ch r'.
Proof.
  unfold marked. rewrite node_at_update. case_decide; [|done].
  destruct (node_at ch r'); simpl; [apply matches_toggle_selected|done].
Qed.

Lemma marked_is_node ch r : marked ch r = true -> r ∈ nodes_from 0 ch.
Proof.
  unfold marked. intros H. apply elem_of_nodes.
  destruct (node_at ch r); [eauto|done].
Qed.

Lemma elem_of_querySelectorAll ch r :
  r ∈ querySelectorAll ch <-> marked ch r = true.
Proof.
  unfold querySelectorAll. rewrite list_elem_of_In, filter_In, <- list_elem_of_In.
  split; [tauto|]. intros H. split; [by apply marked_is_node|done].
Qed.

Lemma NoDup_bfilter {A} (f : A -> bool) l : NoDup l -> NoDup (List.filter f l).
Proof.
  induction 1 as [|x l Hx _ IH]; simpl; [constructor|].
  destruct (f x); [|done]. constructor; [|done].
  rewrite list_elem_of_In, filter_In, <- list_elem_of_In. tauto.
Qed.

Lemma NoDup_querySelectorAll ch : NoDup (querySelectorAll ch).
Proof. apply NoDup_bfilter, NoDup_nodes_from. Qed.

Lemma toggles_length L : forall ch, length (toggles ch L) = length ch.
Proof.
  induction L as [|r L IH]; intros ch; simpl; [done|].
  unfold toggles in *. simpl. by rewrite IH, length_update_node.
Qed.

Lemma getAttribute_value_update r ch r' :
  getAttribute_value (update_node toggle_selected r ch) r' = getAttribute_value ch r'.
Proof.
  unfold getAttribute_value. rewrite node_at_update. case_decide; [|done].
  by destruct (node_at ch r').
Qed.

Lemma toggles_getAttribute L : forall ch r,
  getAttribute_value (toggles ch L) r = getAttribute_value ch r.
Proof.
  induction L as [|r0 L IH]; intros ch r; simpl; [done|].
  unfold toggles in *. simpl. by rewrite IH, getAttribute_value_update.
Qed.

Lemma toggles_marked L : forall ch,
  NoDup L -> (forall r, r ∈ L -> marked ch r = true) ->
  forall r, marked (toggles ch L) r = if decide (r ∈ L) then false else marked ch r.
Proof.
  induction L as [|r0 L IH]; intros ch Hnd Hall r.
  - change (toggles ch []) with ch.
    by rewrite decide_False by apply not_elem_of_nil.
  - apply NoDup_cons in Hnd as [Hr0 Hnd].
    change (toggles ch (r0 :: L)) with (toggles (update_node toggle_selected r0 ch) L).
    rewrite IH; [|done|].
    + destruct (decide (r ∈ L)) as [Hin|Hnin].
      * rewrite decide_True; [done|by apply list_elem_of_further].
      * rewrite marked_update. destruct (decide (r0 = r)) as [->|Hne].
        -- rewrite decide_True by apply list_elem_of_here.
           pose proof (Hall r (list_elem_of_here _ _)) as Hm.
           unfold marked in Hm. destruct (node_at ch r); [by rewrite Hm|done].
        -- rewrite decide_False; [done|].
           rewrite elem_of_cons. intros [?|?]; congruence.
    + intros r' Hr'. rewrite marked_update, decide_False by congruence.
      apply Hall. by apply list_elem_of_further.
Qed.

Lemma clean_up_length ch : length (clean_up ch) = length ch.
Proof. apply toggles_length. Qed.

Lemma clean_up_getAttribute ch r :
  getAttribute_value (clean_up ch) r = getAttribute_value ch r.
Proof. apply toggles_getAttribute. Qed.

(** After the clean-up no element of the display carries the marker. *)
Lemma clean_up_unmarked ch r : marked (clean_up ch) r = false.
Proof.
  unfold clean_up. rewrite toggles_marked.
  - case_decide as H; [done|].
    rewrite elem_of_querySelectorAll in H. by destruct (marked ch r).
  - apply NoDup_querySelectorAll.
  - intros r'. apply elem_of_querySelectorAll.
Qed.

Lemma querySelectorAll_unmarked ch :
  (forall r, marked ch r = false) -> querySelectorAll ch = [].
Proof. intros H. apply filter_none. intros r _. apply H. Qed.

Lemma querySelectorAll_clean_up ch : querySelectorAll (clean_up ch) = [].
Proof. apply querySelectorAll_unmarked, clean_up_unmarked. Qed.

Lemma clean_up_idle ch : querySelectorAll ch = [] -> clean_up ch = ch.
Proof. unfold clean_up. by intros ->. Qed.

(** Marking one child of an unmarked display leaves exactly that marker. *)
Lemma querySelectorAll_toggle_child ch n :
  (forall r, marked ch r = false) -> n < length ch ->
  querySelectorAll (update_node toggle_selected (ChildRef n) ch) = [ChildRef n].
Proof.
  intros Hun Hn. unfold querySelectorAll. rewrite nodes_from_update.
  destruct (lookup_lt_is_Some_2 _ _ Hn) as [it Hit].
  apply filter_only.
  - apply NoDup_nodes_from.
  - apply elem_of_nodes. simpl. rewrite Hit. eauto.
  - intros r _. rewrite marked_update. case_decide as Hr.
    + subst r. simpl. rewrite Hit. simpl.
      specialize (Hun (ChildRef n)). unfold marked in Hun. simpl in Hun.
      rewrite Hit in Hun. simpl in Hun. rewrite Hun. done.
    + rewrite Hun. split; [done|congruence].
Qed.

Lemma indexOf_from_length ch ch' sel : forall k,
  length ch = length ch' -> indexOf_from k ch sel = indexOf_from k ch' sel.
Proof.
  revert ch'. induction ch as [|it ch IH]; intros [|it' ch'] k Hlen;
    simpl in *; try done.
  case_bool_decide; [done|]. apply IH. lia.
Qed.

Lemma indexOf_from_child ch : forall k i,
  k <= i < k + length ch -> indexOf_from k ch (Some (ChildRef i)) = Z.of_nat i.
Proof.
  induction ch as [|it ch IH]; intros k i Hi; simpl in *; [lia|].
  case_bool_decide as H.
  - by injection H as ->.
  - apply IH. assert (i <> k) by congruence. lia.
Qed.

Lemma indexOf_from_None ch : forall k, indexOf_from k ch None = (-1)%Z.
Proof. induction ch as [|it ch IH]; intros k; simpl; [done|]. apply IH. Qed.

Lemma indexOf_from_bounds ch sel : forall k,
  indexOf_from k ch sel = (-1)%Z
  \/ (Z.of_nat k <= indexOf_from k ch sel < Z.of_nat (k + length ch))%Z.
Proof.
  induction ch as [|it ch IH]; intros k; simpl; [by left|].
  case_bool_decide; [right; lia|].
  destruct (IH (S k)) as [->|?]; [by left|right; lia].
Qed.

End Markers.

(** * The selection controller *)

Section Controller.

Variable parseHTML : string -> list Item.

Local Abbreviation navigate := (navigate parseHTML).
Local Abbreviation handleKeyDown := (handleKeyDown parseHTML).

Lemma next_index_bounds current max :
  -1 <= current < max -> 0 < max -> 0 <= next_index current max < max.
Proof. unfold next_index. intros ??. case_match; lia. Qed.

Lemma next_index_min current max :
  current < max -> next_index current max = Z.min (current + 1) (max - 1).
Proof. unfold next_index. intros ?. case_match; lia. Qed.

Lemma prev_index_bounds current max :
  current < max -> 0 < max -> 0 <= prev_index current < max.
Proof. unfold prev_index. intros ??. case_match; lia. Qed.

Lemma prev_index_max current : prev_index current = Z.max (current - 1) 0.
Proof. unfold prev_index. case_match; lia. Qed.

Lemma nonempty_length (ch : list Item) : ch <> [] -> 0 < Z.of_nat (length ch).
Proof. destruct ch; simpl; [done|lia]. Qed.

Lemma selectionIndex_bounds t :
  -1 <= selectionIndex t < Z.of_nat (length (children t)).
Proof.
  unfold selectionIndex, indexOf.
  destruct (indexOf_from_bounds (children t) (querySelector (children t)) 0)
    as [->|?]; lia.
Qed.

Lemma Highlighted_lt t i : Highlighted t i -> (i < length (children t))%nat.
Proof.
  unfold Highlighted. intros H.
  assert (Hin : ChildRef i ∈ querySelectorAll (children t))
    by (rewrite H; apply list_elem_of_here).
  apply elem_of_querySelectorAll, marked_is_node, elem_of_nodes in Hin.
  simpl in Hin. apply fmap_is_Some, lookup_lt_is_Some in Hin. done.
Qed.

Lemma selectionIndex_Highlighted t i :
  Highlighted t i -> selectionIndex t = Z.of_nat i.
Proof.
  intros H. pose proof (Highlighted_lt _ _ H).
  unfold selectionIndex, querySelector. rewrite H. simpl.
  apply indexOf_from_child. lia.
Qed.

Lemma selectionIndex_Idle t : Idle t -> selectionIndex t = -1.
Proof.
  unfold Idle, selectionIndex, querySelector. intros ->. apply indexOf_from_None.
Qed.

Lemma Highlighted_not_Idle t i : Highlighted t i -> ~ Idle t.
Proof. unfold Highlighted, Idle. congruence. Qed.

Lemma action_code_cases code :
  In code actionCodes -> code = 40 \/ code = 38 \/ code = 9 \/ code = 13.
Proof. simpl. intuition. Qed.

(** With the gate passed, the handler runs the navigation on every action
    code. *)
Lemma handleKeyDown_navigate t e :
  hasMinChar t = true -> In (which e) actionCodes ->
  handleKeyDown t e = navigate t e.
Proof.
  intros Hgate Hcode. unfold handleKeyDown. rewrite Hgate.
  by apply action_code_cases in Hcode as [-> |[-> |[-> | ->]]].
Qed.

Lemma handleKeyDown_gate_fails t e :
  hasMinChar t = false ->
  handleKeyDown t e =
    {| after := set_innerHTML parseHTML t EmptyString;
       defaultPrevented := false; completion := Normal |}.
Proof. intros H. unfold handleKeyDown. by rewrite H. Qed.

Lemma handleKeyUp_gate_fails t e :
  hasMinChar t = false ->
  handleKeyUp parseHTML t e = set_innerHTML parseHTML t EmptyString.
Proof. intros H. unfold handleKeyUp. by rewrite H. Qed.

(** The navigation on each of the four action codes. *)

Lemma navigate_next t e :
  which e = 40 \/ which e = 9 ->
  navigate t e =
    toggle_child (set_children t (clean_up (children t)))
      (next_index (selectionIndex t) (Z.of_nat (length (children t)))).
Proof.
  intros Hcode. unfold navigate, selectionIndex, indexOf.
  rewrite (indexOf_from_length _ (children t))
    by (simpl; apply clean_up_length).
  by destruct Hcode as [-> | ->].
Qed.

Lemma navigate_prev t e :
  which e = 38 ->
  navigate t e =
    toggle_child (set_children t (clean_up (children t)))
      (prev_index (selectionIndex t)).
Proof.
  intros Hcode. unfold navigate, selectionIndex, indexOf.
  rewrite Hcode.
  rewrite (indexOf_from_length _ (children t))
    by (simpl; apply clean_up_length).
  done.
Qed.

Lemma navigate_enter t e :
  which e = 13 ->
  navigate t e =
    match querySelector (children t) with
    | None => {| after := set_children t (clean_up (children t));
                 defaultPrevented := true; completion := Normal |}
    | Some r =>
        {| after :=
             set_innerHTML parseHTML
               (set_input_value (set_children t (clean_up (children t)))
                  (getAttribute_value (children t) r)) EmptyString;
           defaultPrevented := true; completion := Normal |}
    end.
Proof.
  intros Hcode. unfold navigate. rewrite Hcode. simpl.
  destruct (querySelector (children t)); [|done].
  by rewrite clean_up_getAttribute.
Qed.

(** Marking a child of the cleaned display. *)
Lemma toggle_child_cleaned t index :
  0 <= index < Z.of_nat (length (children t)) ->
  let o := toggle_child (set_children t (clean_up (children t))) index in
  completion o = Normal
  /\ Highlighted (after o) (Z.to_nat index)
  /\ length (children (after o)) = length (children t).
Proof.
  intros Hi. unfold toggle_child, child_at. simpl.
  destruct (index <? 0) eqn:Hneg; [lia|].
  assert (Hlt : (Z.to_nat index < length (clean_up (children t)))%nat)
    by (rewrite clean_up_length; lia).
  destruct (lookup_lt_is_Some_2 _ _ Hlt) as [it ->]. simpl.
  split; [done|]. split.
  - unfold Highlighted. simpl.
    apply querySelectorAll_toggle_child; [apply clean_up_unmarked|done].
  - by rewrite length_alter, clean_up_length.
Qed.

(** Where the handler completes after marking a child, that child alone is
    marked. *)
Lemma toggle_child_normal t index :
  let o := toggle_child (set_children t (clean_up (children t))) index in
  completion o = Normal ->
  querySelectorAll (children (after o)) = [ChildRef (Z.to_nat index)].
Proof.
  unfold toggle_child, child_at. simpl.
  destruct (index <? 0) eqn:Hneg; [done|].
  destruct (clean_up (children t) !! Z.to_nat index) as [it|] eqn:Hit; [|done].
  intros _. simpl.
  apply querySelectorAll_toggle_child; [apply clean_up_unmarked|].
  apply lookup_lt_is_Some. eauto.
Qed.

Lemma toggle_child_empty t index :
  children t = [] ->
  toggle_child (set_children t (clean_up (children t))) index =
    {| after := t; defaultPrevented := true; completion := TypeError |}.
Proof.
  intros H. unfold toggle_child, child_at. rewrite H. simpl.
  destruct t; simpl in *; subst. by destruct (index <? 0).
Qed.

(** Marking a child touches neither the input nor the options, so the gate
    keeps its answer. *)
Lemma toggle_child_gate t ch index :
  hasMinChar (after (toggle_child (set_children t ch) index)) = hasMinChar t.
Proof. unfold toggle_child. by destruct (child_at _ _). Qed.

(** The step of a down or tab press. *)
Lemma next_step t e :
  children t <> [] -> which e = 40 \/ which e = 9 ->
  let o := navigate t e in
  completion o = Normal
  /\ Highlighted (after o)
       (Z.to_nat (next_index (selectionIndex t) (Z.of_nat (length (children t)))))
  /\ length (children (after o)) = length (children t).
Proof.
  intros Hne Hcode. simpl. rewrite (navigate_next _ _ Hcode).
  apply toggle_child_cleaned, next_index_bounds.
  - apply selectionIndex_bounds.
  - by apply nonempty_length.
Qed.

(** The step of an up press. *)
Lemma prev_step t e :
  children t <> [] -> which e = 38 ->
  let o := navigate t e in
  completion o = Normal
  /\ Highlighted (after o) (Z.to_nat (prev_index (selectionIndex t))).
Proof.
  intros Hne Hcode. simpl. rewrite (navigate_prev _ _ Hcode).
  pose proof (selectionIndex_bounds t). pose proof (nonempty_length _ Hne).
  destruct (toggle_child_cleaned t (prev_index (selectionIndex t))) as (? & ? & _);
    [|done].
  apply prev_index_bounds; lia.
Qed.

(** One marked node at most means one marked rendered item at most. *)
Lemma one_marked_item ch :
  (length (querySelectorAll ch) <= 1)%nat ->
  forall i j it it',
    ch !! i = Some it -> ch !! j = Some it' ->
    matches_selected (item_element it) = true ->
    matches_selected (item_element it') = true ->
    i = j.
Proof.
  intros Hlen i j it it' Hi Hj Hm Hm'.
  assert (Hin : ChildRef i ∈ querySelectorAll ch)
    by (apply elem_of_querySelectorAll; unfold marked; simpl; by rewrite Hi).
  assert (Hin' : ChildRef j ∈ querySelectorAll ch)
    by (apply elem_of_querySelectorAll; unfold marked; simpl; by rewrite Hj).
  destruct (querySelectorAll ch) as [|r [|r' l]]; simpl in Hlen; [|  |lia].
  - by apply elem_of_nil in Hin.
  - apply list_elem_of_singleton in Hin, Hin'. congruence.
Qed.

(** Whatever the display was, a completed navigation leaves one marker at
    most. *)
Lemma navigate_markers t e :
  In (which e) actionCodes ->
  (children t <> [] -> completion (navigate t e) = Normal)
  /\ (completion (navigate t e) = Normal ->
      (length (querySelectorAll (children (after (navigate t e)))) <= 1)%nat).
Proof.
  intros Hcode. apply action_code_cases in Hcode as [Hc|[Hc|[Hc|Hc]]].
  - split; [intros Hne; by apply next_step; auto|].
    rewrite navigate_next by auto.
    intros Hn. rewrite (toggle_child_normal _ _ Hn). simpl. lia.
  - split; [intros Hne; by apply prev_step|].
    rewrite navigate_prev by auto.
    intros Hn. rewrite (toggle_child_normal _ _ Hn). simpl. lia.
  - split; [intros Hne; by apply next_step; auto|].
    rewrite navigate_next by auto.
    intros Hn. rewrite (toggle_child_normal _ _ Hn). simpl. lia.
  - rewrite navigate_enter by auto.
    destruct (querySelector (children t)); simpl; (split; [done|]); intros _.
    + lia.
    + rewrite querySelectorAll_clean_up. simpl. lia.
Qed.

(** Under a passing gate, keydown events of down are presses of down. *)
Lemma keydowns_presses n : forall t,
  hasMinChar t = true ->
  keydowns parseHTML 40 n t = presses parseHTML 40 n t.
Proof.
  induction n as [|n IH]; intros t Hgate; simpl; [done|].
  rewrite handleKeyDown_navigate by (simpl; auto).
  apply IH. rewrite navigate_next by (simpl; auto).
  by rewrite toggle_child_gate.
Qed.

(** Repeated down presses from a highlighted item of a list of three. *)
Lemma downs_from_highlighted n : forall t i,
  Highlighted t i -> length (children t) = 3%nat ->
  Highlighted (presses parseHTML 40 n t) (Nat.min (i + n) 2).
Proof.
  induction n as [|n IH]; intros t i Hi Hlen.
  - pose proof (Highlighted_lt _ _ Hi). simpl.
    by replace (Nat.min (i + 0) 2) with i by lia.
  - pose proof (Highlighted_lt _ _ Hi) as Hlt.
    assert (Hne : children t <> []) by (destruct (children t); done).
    destruct (next_step t (keydown 40) Hne (or_introl eq_refl))
      as (_ & Hh & Hl).
    rewrite (selectionIndex_Highlighted _ _ Hi), next_index_min in Hh by lia.
    simpl. replace (Nat.min (i + S n) 2)
      with (Nat.min (Z.to_nat (Z.min (Z.of_nat i + 1)
                                 (Z.of_nat (length (children t)) - 1)) + n) 2)
      by lia.
    apply IH; [done|congruence].
Qed.

End Controller.

(** * The claims on the selection controller and the gate *)

Section Claims.

Variable parseHTML : string -> list Item.

Local Abbreviation navigate := (navigate parseHTML).
Local Abbreviation handleKeyDown := (handleKeyDown parseHTML).
Local Abbreviation handleKeyUp := (handleKeyUp parseHTML).

(** C1: over a non-empty rendered list a down (40) or tab (9) press
    completes and moves [Highlighted i] to [Highlighted (min (i+1) last)]:
    on the last item it stays there, without wrapping around; from [Idle] the
    current index is -1 and the press highlights item 0.  The press is what
    [handleKeyDown] does once its gate has passed. *)
Theorem down_tab_clamped (t : Taxi) (e : Event) :
  children t <> [] ->
  which e = 40 \/ which e = 9 ->
  let o := navigate t e in
  let last := (length (children t) - 1)%nat in
  completion o = Normal
  /\ (forall i, Highlighted t i -> Highlighted (after o) (Nat.min (i + 1) last))
  /\ (Highlighted t last -> Highlighted (after o) last)
  /\ (Idle t -> selectionIndex t = -1 /\ Highlighted (after o) 0)
  /\ (hasMinChar t = true -> handleKeyDown t e = o).
Proof.
  intros Hne Hcode o last. subst o.
  pose proof (nonempty_length _ Hne) as Hpos.
  destruct (next_step parseHTML t e Hne Hcode) as (Hc & Hh & _).
  assert (Hmove : forall i, Highlighted t i ->
            Highlighted (after (navigate t e)) (Nat.min (i + 1) last)).
  { intros i Hi. rewrite (selectionIndex_Highlighted _ _ Hi) in Hh.
    pose proof (Highlighted_lt _ _ Hi).
    rewrite next_index_min in Hh by lia.
    replace (Nat.min (i + 1) last)
      with (Z.to_nat (Z.min (Z.of_nat i + 1) (Z.of_nat (length (children t)) - 1)));
      [done|subst last; lia]. }
  split; [done|]. split; [done|]. split; [|split].
  - intros Hl. specialize (Hmove _ Hl).
    by replace (Nat.min (last + 1) last) with last in Hmove by lia.
  - intros Hidle.
    assert (Hn : next_index (-1) (Z.of_nat (length (children t))) = 0)
      by (rewrite next_index_min; lia).
    rewrite (selectionIndex_Idle _ Hidle), Hn in *. done.
  - intros Hgate. apply handleKeyDown_navigate; [done|].
    destruct Hcode as [-> | ->]; simpl; auto.
Qed.

(** C2: an up (38) press moves [Highlighted i] to
    [Highlighted (max (i-1) 0)]: the index is clamped at 0, the state after
    the press is never [Idle], and on item 0 the highlight stays on item 0.
    A display in state [Highlighted i] has more than [i] items, so it is
    not empty. *)
Theorem up_clamped (t : Taxi) (e : Event) (i : nat) :
  Highlighted t i ->
  which e = 38 ->
  let o := navigate t e in
  children t <> []
  /\ completion o = Normal
  /\ Highlighted (after o) (Z.to_nat (Z.max (Z.of_nat i - 1) 0))
  /\ ~ Idle (after o)
  /\ (i = 0%nat -> Highlighted (after o) 0)
  /\ (hasMinChar t = true -> handleKeyDown t e = o).
Proof.
  intros Hi Hcode o. subst o.
  pose proof (Highlighted_lt _ _ Hi) as Hlt.
  assert (Hne : children t <> []) by (destruct (children t); simpl in *; [lia|done]).
  destruct (prev_step parseHTML t e Hne Hcode) as (Hc & Hh).
  rewrite (selectionIndex_Highlighted _ _ Hi), prev_index_max in Hh.
  split; [done|]. split; [done|]. split; [done|]. split; [|split].
  - by eapply Highlighted_not_Idle.
  - by intros ->.
  - intros Hgate. apply handleKeyDown_navigate; [done|]. rewrite Hcode. simpl. auto.
Qed.

(** C10: over a non-empty rendered list an up (38) press in state [Idle]
    highlights the first item: the previous index of -1 is clamped to 0, and
    the state does not stay [Idle]. *)
Theorem up_from_idle (t : Taxi) (e : Event) :
  children t <> [] ->
  Idle t ->
  which e = 38 ->
  let o := navigate t e in
  prev_index (selectionIndex t) = 0
  /\ completion o = Normal
  /\ Highlighted (after o) 0
  /\ ~ Idle (after o)
  /\ (hasMinChar t = true -> handleKeyDown t e = o).
Proof.
  intros Hne Hidle Hcode o. subst o.
  destruct (prev_step parseHTML t e Hne Hcode) as (Hc & Hh).
  rewrite (selectionIndex_Idle _ Hidle) in *.
  split; [done|]. split; [done|]. split; [done|]. split.
  - by eapply Highlighted_not_Idle.
  - intros Hgate. apply handleKeyDown_navigate; [done|]. rewrite Hcode. simpl. auto.
Qed.

(** C3, amended: an enter (13) press in state [Idle] leaves the instance as
    it was: nothing is committed, the input value and the display are
    unchanged.  In state [Highlighted i] it assigns the [value] attribute of
    item [i] to the input, which stores it without its line feeds and carriage
    returns, so that a value without line breaks is copied as it is; it empties
    the display and leaves the state [Idle]. *)
Theorem enter_commits (t : Taxi) (e : Event) :
  which e = 13 ->
  let o := navigate t e in
  (Idle t -> o = {| after := t; defaultPrevented := true; completion := Normal |})
  /\ (forall i it, Highlighted t i -> children t !! i = Some it ->
        completion o = Normal
        /\ input_value (after o) = to_input_value (value_attribute (item_element it))
        /\ (forall v, value_attribute (item_element it) = Some v ->
              input_value (after o) = strip_newlines v
              /\ (single_line v = true -> input_value (after o) = v))
        /\ children (after o) = []
        /\ Idle (after o))
  /\ (hasMinChar t = true -> handleKeyDown t e = o).
Proof.
  intros Hcode o. subst o. split; [|split].
  - rewrite (navigate_enter _ _ _ Hcode).
    intros Hidle. unfold querySelector. rewrite Hidle. simpl.
    rewrite (clean_up_idle _ Hidle). by destruct t.
  - rewrite (navigate_enter _ _ _ Hcode). intros i it Hi Hit.
    assert (Hq : querySelector (children t) = Some (ChildRef i))
      by (unfold querySelector; by rewrite Hi).
    revert Hq. generalize (querySelector (children t)). intros ? ->.
    unfold getAttribute_value. simpl. rewrite Hit. simpl.
    split; [done|]. split; [done|]. split; [|done].
    intros v ->. split; [done|]. apply strip_newlines_single_line.
  - intros Hgate. apply handleKeyDown_navigate; [done|]. rewrite Hcode. simpl. auto.
Qed.

(** C4: after a down, up, tab or enter keydown that completes, at most one
    element of the display, and so at most one rendered item, carries the
    [is-selected] marker, whatever the display was before: the clean-up
    clears every marker before one is set.  This holds of the navigation and
    of the whole handler, and over a non-empty rendered list both complete. *)
Theorem at_most_one_marker (t : Taxi) (e : Event) :
  In (which e) actionCodes ->
  querySelectorAll (clean_up (children t)) = []
  /\ (forall o, o = navigate t e \/ o = handleKeyDown t e ->
        (children t <> [] -> completion o = Normal)
        /\ (completion o = Normal ->
              (length (querySelectorAll (children (after o))) <= 1)%nat
              /\ forall i j it it',
                   children (after o) !! i = Some it ->
                   children (after o) !! j = Some it' ->
                   matches_selected (item_element it) = true ->
                   matches_selected (item_element it') = true ->
                   i = j)).
Proof.
  intros Hcode. split; [apply querySelectorAll_clean_up|].
  intros o Ho.
  assert (H : (children t <> [] -> completion o = Normal)
              /\ (completion o = Normal ->
                  (length (querySelectorAll (children (after o))) <= 1)%nat)).
  { destruct Ho as [-> | ->]; [by apply navigate_markers|].
    destruct (hasMinChar t) eqn:Hgate.
    - rewrite handleKeyDown_navigate by done. by apply navigate_markers.
    - rewrite handleKeyDown_gate_fails by done. simpl. split; [done|lia]. }
  destruct H as [H1 H2]. split; [done|]. intros Hn. split; [by apply H2|].
  apply one_marked_item. by apply H2.
Qed.

(** C8, amended: after [N >= 1] down (40) presses from [Idle] over a
    rendered list of three items the highlighted index is [min (N-1) 2]: the
    first press highlights item 0.  The presses are what [N] keydown events
    do once the gate has passed. *)
Theorem downs_from_idle (t : Taxi) (N : nat) :
  (1 <= N)%nat ->
  Idle t ->
  length (children t) = 3%nat ->
  Highlighted (presses parseHTML 40 N t) (Nat.min (N - 1) 2)
  /\ (hasMinChar t = true ->
      keydowns parseHTML 40 N t = presses parseHTML 40 N t).
Proof.
  intros HN Hidle Hlen. split; [|apply keydowns_presses].
  destruct N as [|n]; [lia|].
  assert (Hne : children t <> []) by (destruct (children t); done).
  destruct (next_step parseHTML t (keydown 40) Hne (or_introl eq_refl))
    as (_ & Hh & Hl).
  rewrite (selectionIndex_Idle _ Hidle), next_index_min in Hh by lia.
  simpl. replace (n - 0)%nat with (0 + n)%nat by lia.
  apply downs_from_highlighted; [|congruence].
  by replace (Z.to_nat (Z.min (-1 + 1) (Z.of_nat (length (children t)) - 1)))
    with 0%nat in Hh by lia.
Qed.

(** C9: on an empty rendered list, with the gate passed, a down (40), tab
    (9) or up (38) keydown reads the child at index -1 (down and tab:
    [next = current = -1]) or at index 0 (up), finds [undefined] there and
    dereferences it: the handler ends in a TypeError instead of completing. *)
Theorem navigation_on_empty_list (t : Taxi) (e : Event) :
  children t = [] ->
  hasMinChar t = true ->
  which e = 40 \/ which e = 9 \/ which e = 38 ->
  selectionIndex t = -1
  /\ next_index (selectionIndex t) (Z.of_nat (length (children t))) = -1
  /\ prev_index (selectionIndex t) = 0
  /\ child_at (clean_up (children t)) (-1) = None
  /\ child_at (clean_up (children t)) 0 = None
  /\ handleKeyDown t e =
       {| after := t; defaultPrevented := true; completion := TypeError |}.
Proof.
  intros Hempty Hgate Hcode.
  assert (Hidx : selectionIndex t = -1).
  { unfold selectionIndex. by rewrite Hempty. }
  rewrite Hidx, Hempty. repeat (split; [done|]).
  rewrite handleKeyDown_navigate;
    [|done|destruct Hcode as [-> |[-> | ->]]; simpl; auto].
  destruct Hcode as [Hcode|[Hcode|Hcode]].
  - rewrite navigate_next by auto. by apply toggle_child_empty.
  - rewrite navigate_next by auto. by apply toggle_child_empty.
  - rewrite navigate_prev by auto. by apply toggle_child_empty.
Qed.

(** C7: the gate passes whenever [minChar] is zero and otherwise exactly
    when the trimmed input length is at least [minChar]; when it fails the
    display is emptied, by [handleKeyUp] and by [handleKeyDown] alike, for
    every key and every dataset, and in the class source for every key its
    [KeyHandler] knows.  With [minChar = 3] and an input of length 2 the
    display is emptied. *)
Theorem minChar_gate (t : Taxi) (e : Event) :
  (minChar (options t) = 0 -> hasMinChar t = true)
  /\ (minChar (options t) <> 0 ->
        (hasMinChar t = true <->
         minChar (options t) <= Z.of_nat (String.length (trim (input_value t)))))
  /\ (hasMinChar t = false ->
        children (handleKeyUp t e) = []
        /\ children (after (handleKeyDown t e)) = []
        /\ forall has handle, has (which e) = true ->
             children (after (handleKeyDown_class parseHTML has handle t e)) = [])
  /\ (minChar (options t) = 3 -> String.length (input_value t) = 2%nat ->
        hasMinChar t = false
        /\ children (handleKeyUp t e) = []
        /\ children (after (handleKeyDown t e)) = []).
Proof.
  split; [|split; [|split]].
  - unfold hasMinChar. by intros ->.
  - intros Hnz. unfold hasMinChar.
    destruct (minChar (options t) =? 0) eqn:Hz; [lia|].
    destruct (_ >=? _) eqn:Hge; split; try done; lia.
  - intros Hfail. split; [|split].
    + by rewrite handleKeyUp_gate_fails.
    + by rewrite handleKeyDown_gate_fails.
    + intros has handle Hhas. unfold handleKeyDown_class.
      by rewrite Hhas, Hfail.
  - intros Hmin Hlen.
    assert (Hfail : hasMinChar t = false).
    { unfold hasMinChar. rewrite Hmin. simpl.
      pose proof (trim_length (input_value t)).
      destruct (_ >=? 3) eqn:Hge; [lia|done]. }
    split; [done|]. split.
    + by rewrite handleKeyUp_gate_fails.
    + by rewrite handleKeyDown_gate_fails.
Qed.

End Claims.

(** * The handlers at work on the sample list *)

(** The scenario of the specification: "vo" typed over the three records
    renders the one match; down then enter commits it and empties the
    display. *)
Example scenario_vo :
  let t0 := {| input_value := "vo"; children := [];
               options := {| data := ["Volkswagen"; "Mercedes"; "Daimler"];
                             query := Query.strict; toHtml := ToHtml.classic;
                             minChar := 1 |} |} in
  let t1 := handleKeyUp Sample.parse t0 (keydown 79) in
  let t2 := after (handleKeyDown Sample.parse t1 (keydown 40)) in
  let o := handleKeyDown Sample.parse t2 (keydown 13) in
  children t1 = [Sample.card "Volkswagen"]
  /\ Highlighted t2 0
  /\ input_value (after o) = "Volkswagen"
  /\ children (after o) = [].
Proof. vm_compute. repeat split; reflexivity. Qed.

Lemma down_tab_clamped_witness :
  Highlighted (after (navigate Sample.parse (Sample.selected 1) (keydown 40))) 2
  /\ Highlighted (after (navigate Sample.parse (Sample.selected 2) (keydown 9))) 2
  /\ Highlighted (after (navigate Sample.parse Sample.rendered (keydown 40))) 0
  /\ handleKeyDown Sample.parse Sample.rendered (keydown 40)
     = navigate Sample.parse Sample.rendered (keydown 40).
Proof.
  split; [|split; [|split]].
  - destruct (down_tab_clamped Sample.parse (Sample.selected 1) (keydown 40))
      as (_ & H & _); [discriminate|by left|].
    apply (H 1%nat). reflexivity.
  - destruct (down_tab_clamped Sample.parse (Sample.selected 2) (keydown 9))
      as (_ & _ & H & _); [discriminate|by right|].
    apply H. reflexivity.
  - destruct (down_tab_clamped Sample.parse Sample.rendered (keydown 40))
      as (_ & _ & _ & H & _); [discriminate|by left|].
    apply H. reflexivity.
  - destruct (down_tab_clamped Sample.parse Sample.rendered (keydown 40))
      as (_ & _ & _ & _ & H); [discriminate|by left|].
    apply H. reflexivity.
Defined.

Lemma up_clamped_witness :
  Highlighted (after (navigate Sample.parse (Sample.selected 2) (keydown 38))) 1
  /\ Highlighted (after (navigate Sample.parse (Sample.selected 0) (keydown 38))) 0.
Proof.
  split.
  - destruct (up_clamped Sample.parse (Sample.selected 2) (keydown 38) 2)
      as (_ & _ & H & _); [reflexivity|reflexivity|exact H].
  - destruct (up_clamped Sample.parse (Sample.selected 0) (keydown 38) 0)
      as (_ & _ & _ & _ & H & _); [reflexivity|reflexivity|by apply H].
Defined.

Lemma up_from_idle_witness :
  Highlighted (after (navigate Sample.parse Sample.rendered (keydown 38))) 0.
Proof.
  destruct (up_from_idle Sample.parse Sample.rendered (keydown 38))
    as (_ & _ & H & _); [discriminate|reflexivity|reflexivity|exact H].
Defined.

Lemma enter_commits_witness :
  navigate Sample.parse Sample.rendered (keydown 13)
  = {| after := Sample.rendered; defaultPrevented := true; completion := Normal |}
  /\ input_value (after (navigate Sample.parse (Sample.selected 1) (keydown 13)))
     = "Mercedes"
  /\ children (after (navigate Sample.parse (Sample.selected 1) (keydown 13))) = [].
Proof.
  split.
  - destruct (enter_commits Sample.parse Sample.rendered (keydown 13) eq_refl)
      as (H & _). apply H. reflexivity.
  - destruct (enter_commits Sample.parse (Sample.selected 1) (keydown 13) eq_refl)
      as (_ & H & _).
    destruct (H 1%nat _ eq_refl eq_refl) as (_ & _ & Hv & Hc & _).
    destruct (Hv "Mercedes" eq_refl) as [_ Hs].
    split; [by apply Hs|exact Hc].
Defined.

(** Copied as it is, the value of two lines would be in the input after
    enter; the input holds it without the line feed. *)
Lemma enter_commits_copy_refuted :
  let t := SampleDisplays.two_lines_selected in
  let o := handleKeyDown Sample.parse t (keydown 13) in
  hasMinChar t = true
  /\ Highlighted t 0
  /\ getAttribute_value (children t) (ChildRef 0) = Some SampleDisplays.two_lines
  /\ completion o = Normal
  /\ input_value (after o) = "ab"
  /\ input_value (after o) <> SampleDisplays.two_lines.
Proof.
  repeat split; try reflexivity. vm_compute. discriminate.
Qed.

Lemma at_most_one_marker_witness :
  (length (querySelectorAll
     (children (after (handleKeyDown Sample.parse (Sample.selected 2) (keydown 38)))))
   <= 1)%nat.
Proof.
  destruct (at_most_one_marker Sample.parse (Sample.selected 2) (keydown 38))
    as (_ & H); [simpl; auto|].
  destruct (H _ (or_intror eq_refl)) as (Hc & Hm).
  apply Hm, Hc. discriminate.
Defined.

Lemma downs_from_idle_witness :
  Highlighted (presses Sample.parse 40 5 Sample.rendered) 2
  /\ keydowns Sample.parse 40 5 Sample.rendered
     = presses Sample.parse 40 5 Sample.rendered.
Proof.
  destruct (downs_from_idle Sample.parse Sample.rendered 5) as (H & Hk);
    [lia|reflexivity|reflexivity|].
  split; [exact H|by apply Hk].
Defined.

(** With [min N 2] in place of [min (N-1) 2] the statement fails at the first
    press: one down keydown from [Idle] over three items highlights item 0,
    not item [min 1 2 = 1]. *)
Lemma downs_from_idle_min_N_refuted :
  Idle Sample.rendered
  /\ length (children Sample.rendered) = 3%nat
  /\ hasMinChar Sample.rendered = true
  /\ Highlighted (keydowns Sample.parse 40 1 Sample.rendered) 0
  /\ ~ Highlighted (keydowns Sample.parse 40 1 Sample.rendered) (Nat.min 1 2).
Proof.
  repeat split; try reflexivity. vm_compute. discriminate.
Qed.

Lemma navigation_on_empty_list_witness :
  completion (handleKeyDown Sample.parse Sample.empty (keydown 40)) = TypeError
  /\ completion (handleKeyDown Sample.parse Sample.empty (keydown 38)) = TypeError.
Proof.
  split.
  - destruct (navigation_on_empty_list Sample.parse Sample.empty (keydown 40))
      as (_ & _ & _ & _ & _ & H); [reflexivity|reflexivity|by left|].
    by rewrite H.
  - destruct (navigation_on_empty_list Sample.parse Sample.empty (keydown 38))
      as (_ & _ & _ & _ & _ & H); [reflexivity|reflexivity|by right; right|].
    by rewrite H.
Defined.

Lemma minChar_gate_witness :
  hasMinChar Sample.short = false
  /\ children (handleKeyUp Sample.parse Sample.short (keydown 79)) = []
  /\ children (after (handleKeyDown Sample.parse Sample.short (keydown 40))) = [].
Proof.
  destruct (minChar_gate Sample.parse Sample.short (keydown 79))
    as (_ & _ & Hfail & H).
  destruct (H eq_refl eq_refl) as (Hgate & Hup & _).
  split; [exact Hgate|]. split; [exact Hup|].
  destruct (minChar_gate Sample.parse Sample.short (keydown 40))
    as (_ & _ & Hfail' & _).
  by apply Hfail'.
Defined.

(** * More on the match engine *)

Section MatchFacts.

Local Open Scope nat_scope.

Lemma toLowerCase_unit_idemp c :
  toLowerCase_unit (toLowerCase_unit c) = toLowerCase_unit c.
Proof. destruct c as [[] [] [] [] [] [] [] []]; reflexivity. Qed.

Lemma toLowerCase_idemp s : toLowerCase (toLowerCase s) = toLowerCase s.
Proof.
  induction s as [|c s IH]; simpl; [done|].
  by rewrite toLowerCase_unit_idemp, IH.
Qed.

Lemma append_assoc (a b c : string) : (a +:+ b) +:+ c = a +:+ b +:+ c.
Proof.
  induction a as [|x a IH]; [done|].
  change (String x ((a +:+ b) +:+ c) = String x (a +:+ b +:+ c)). by rewrite IH.
Qed.

Lemma toLowerCase_app a b :
  toLowerCase (a +:+ b) = toLowerCase a +:+ toLowerCase b.
Proof.
  induction a as [|x a IH]; [done|].
  change (String (toLowerCase_unit x) (toLowerCase (a +:+ b))
          = String (toLowerCase_unit x) (toLowerCase a +:+ toLowerCase b)).
  by rewrite IH.
Qed.

Lemma chars_app a b :
  String.list_ascii_of_string (a +:+ b)
  = String.list_ascii_of_string a ++ String.list_ascii_of_string b.
Proof.
  induction a as [|x a IH]; [done|].
  change (x :: String.list_ascii_of_string (a +:+ b)
          = x :: (String.list_ascii_of_string a ++ String.list_ascii_of_string b)).
  by rewrite IH.
Qed.

Lemma remove_spaces_sublist s :
  String.list_ascii_of_string (remove_spaces s)
    `sublist_of` String.list_ascii_of_string s.
Proof.
  induction s as [|c s IH]; simpl; [done|].
  destruct (Ascii.eqb c " "); simpl; by constructor.
Qed.

Lemma remove_spaces_app a b :
  remove_spaces (a +:+ b) = remove_spaces a +:+ remove_spaces b.
Proof.
  induction a as [|x a IH]; [done|].
  change (remove_spaces (String x (a +:+ b))
          = remove_spaces (String x a) +:+ remove_spaces b).
  simpl. rewrite IH. by destruct (Ascii.eqb x " ").
Qed.

Lemma substring_of_sublist q s :
  substring_of q s ->
  String.list_ascii_of_string q `sublist_of` String.list_ascii_of_string s.
Proof.
  intros (pre & post & ->). rewrite !chars_app.
  apply sublist_inserts_l, sublist_inserts_r. done.
Qed.

Lemma substring_of_trans a b c :
  substring_of a b -> substring_of b c -> substring_of a c.
Proof.
  intros (p1 & s1 & ->) (p2 & s2 & ->).
  exists (p2 +:+ p1), (s1 +:+ s2). by rewrite !append_assoc.
Qed.

Lemma substring_of_toLowerCase q s :
  substring_of q s -> substring_of (toLowerCase q) (toLowerCase s).
Proof.
  intros (pre & post & ->). exists (toLowerCase pre), (toLowerCase post).
  by rewrite !toLowerCase_app.
Qed.

Lemma substring_of_remove_spaces q s :
  substring_of q s -> substring_of (remove_spaces q) (remove_spaces s).
Proof.
  intros (pre & post & ->). exists (remove_spaces pre), (remove_spaces post).
  by rewrite !remove_spaces_app.
Qed.

Lemma substring_of_refl s : substring_of s s.
Proof.
  exists EmptyString, EmptyString. change (s = s +:+ EmptyString).
  induction s as [|c s IH]; [done|].
  change (String c s = String c (s +:+ EmptyString)). by rewrite <- IH.
Qed.

(** When [fuzzy] returns the record. *)
Lemma fuzzy_JsString s q :
  Query.fuzzy s q = JsString s <->
  subsequence (remove_spaces (toLowerCase q)) (toLowerCase s).
Proof.
  rewrite fuzzy_greedy. unfold subsequence.
  rewrite <- greedy_sublist, <- length_chars.
  case_decide; split; done.
Qed.

Lemma strict_true s q :
  Query.strict s q = JsBoolean true <->
  substring_of (toLowerCase q) (toLowerCase s).
Proof.
  unfold Query.strict. rewrite <- includes_spec.
  split; [by intros [=]|by intros ->].
Qed.

(** What the filter pass makes of a [fuzzy] answer. *)
Lemma truthy_fuzzy s q :
  truthy (Query.fuzzy s q) = true <->
  s <> EmptyString /\ subsequence (remove_spaces (toLowerCase q)) (toLowerCase s).
Proof.
  rewrite <- fuzzy_JsString, fuzzy_greedy.
  case_decide; simpl.
  - rewrite negb_true_iff, String.eqb_neq. tauto.
  - split; [done|]. by intros [_ ?].
Qed.

Lemma bfilter_sublist {A} (f g : A -> bool) l :
  (forall x, x ∈ l -> f x = true -> g x = true) ->
  List.filter f l `sublist_of` List.filter g l.
Proof.
  induction l as [|x l IH]; intros H; simpl; [done|].
  assert (IH' : List.filter f l `sublist_of` List.filter g l).
  { apply IH. intros y Hy. apply H. by apply list_elem_of_further. }
  destruct (f x) eqn:Hf.
  - rewrite (H x (list_elem_of_here _ _) Hf). by constructor.
  - destruct (g x); [by constructor|done].
Qed.

Lemma elem_of_bfilter {A} (f : A -> bool) l x :
  x ∈ List.filter f l <-> x ∈ l /\ f x = true.
Proof. by rewrite !list_elem_of_In, filter_In. Qed.

Lemma bfilter_all {A} (f : A -> bool) l :
  (forall x, x ∈ l -> f x = true) -> List.filter f l = l.
Proof.
  induction l as [|x l IH]; intros H; simpl; [done|].
  rewrite (H x (list_elem_of_here _ _)). f_equal.
  apply IH. intros y Hy. apply H. by apply list_elem_of_further.
Qed.

End MatchFacts.

(** X1: whatever [strict] accepts, [fuzzy] accepts too: a query found as a
    block in the record is found as a subsequence once its spaces are gone.
    So every non-empty record the filter pass keeps under [strict] it keeps
    under [fuzzy]. *)
Theorem strict_implies_fuzzy (o o' : TaxiOptions) (value : string) :
  query o = Query.strict ->
  query o' = Query.fuzzy ->
  data o' = data o ->
  (forall r, Query.strict r value = JsBoolean true ->
             Query.fuzzy r value = JsString r)
  /\ (forall r, r ∈ filtered o value -> r <> EmptyString -> r ∈ filtered o' value).
Proof.
  intros Hs Hf Hd.
  assert (H : forall r, Query.strict r value = JsBoolean true ->
                        Query.fuzzy r value = JsString r).
  { intros r Hr. apply fuzzy_JsString. apply strict_true in Hr.
    unfold subsequence. etrans; [apply remove_spaces_sublist|].
    by apply substring_of_sublist. }
  split; [done|]. intros r Hr Hne. unfold filtered in *.
  rewrite Hs in Hr. rewrite Hf, Hd.
  apply elem_of_bfilter in Hr as [Hin Ht]. apply elem_of_bfilter. split; [done|].
  apply truthy_fuzzy. split; [done|]. apply fuzzy_JsString, H.
  simpl in Ht. unfold Query.strict. by rewrite Ht.
Qed.

(** X2: both predicates see the lower-case forms only: records and queries
    that differ in case alone get the same answer, and so does a string and
    its lower-case form. *)
Theorem matching_ignores_case (s s' q q' : string) :
  toLowerCase s = toLowerCase s' ->
  toLowerCase q = toLowerCase q' ->
  Query.strict s q = Query.strict s' q'
  /\ (Query.fuzzy s q = JsString s <-> Query.fuzzy s' q' = JsString s')
  /\ Query.strict (toLowerCase s) (toLowerCase q) = Query.strict s q
  /\ (Query.fuzzy (toLowerCase s) (toLowerCase q) = JsString (toLowerCase s)
      <-> Query.fuzzy s q = JsString s).
Proof.
  intros Hs Hq. split; [|split; [|split]].
  - unfold Query.strict. by rewrite Hs, Hq.
  - rewrite !fuzzy_JsString. by rewrite Hs, Hq.
  - unfold Query.strict. by rewrite !toLowerCase_idemp.
  - rewrite !fuzzy_JsString. by rewrite !toLowerCase_idemp.
Qed.

(** X3: a record is found by its own text: with the record typed in as the
    query, the filter pass keeps it under [strict], and under [fuzzy] unless
    the record is the empty string. *)
Theorem own_text_matches (o : TaxiOptions) (r : string) :
  r ∈ data o ->
  (query o = Query.strict -> r ∈ filtered o r)
  /\ (query o = Query.fuzzy -> r <> EmptyString -> r ∈ filtered o r).
Proof.
  intros Hin. unfold filtered. split.
  - intros ->. apply elem_of_bfilter. split; [done|].
    assert (H : Query.strict r r = JsBoolean true)
      by apply strict_true, substring_of_refl.
    by rewrite H.
  - intros -> Hne. apply elem_of_bfilter. split; [done|].
    apply truthy_fuzzy. split; [done|]. apply remove_spaces_sublist.
Qed.

(** X4: under [fuzzy] the filter pass keeps exactly the non-empty records that
    have the lower-case query, spaces removed, as a subsequence of their
    lower-case form, each in its place: the empty record is dropped even where
    [fuzzy] accepts it, since the empty string it returns is falsy. *)
Theorem filtered_fuzzy (o : TaxiOptions) (q : string) :
  query o = Query.fuzzy ->
  let P := fun r => r <> EmptyString
                    /\ subsequence (remove_spaces (toLowerCase q)) (toLowerCase r) in
  (forall R, kept_in_order P (data o) R <-> R = filtered o q)
  /\ (EmptyString ∉ filtered o q)
  /\ Query.fuzzy EmptyString EmptyString = JsString EmptyString.
Proof.
  intros Hq P. unfold filtered. rewrite Hq.
  assert (Hspec : forall r, truthy (Query.fuzzy r q) = true <-> P r)
    by (intros r; apply truthy_fuzzy).
  split; [|split; [|reflexivity]].
  - intros R. split; [apply (kept_unique _ _ Hspec)|].
    intros ->. apply (filter_kept _ _ Hspec).
  - rewrite elem_of_bfilter, Hspec. by intros [_ [? _]].
Qed.

(** X5: an empty query hides nothing: under [strict] the filter pass returns
    the whole dataset, in order; under [fuzzy] a query of spaces alone returns
    every record but the empty ones. *)
Theorem empty_query_lists_all (o : TaxiOptions) (q : string) :
  remove_spaces q = EmptyString ->
  (query o = Query.strict -> filtered o EmptyString = data o)
  /\ (query o = Query.fuzzy ->
      filtered o q = List.filter (fun r => negb (String.eqb r EmptyString)) (data o)).
Proof.
  intros Hq. unfold filtered. split; intros ->.
  - apply bfilter_all. intros r _.
    assert (H : Query.strict r EmptyString = JsBoolean true).
    { apply strict_true. by exists EmptyString, (toLowerCase r). }
    by rewrite H.
  - apply filter_ext. intros r.
    assert (Hl : remove_spaces (toLowerCase q) = EmptyString).
    { clear -Hq. induction q as [|c q IH]; [done|]. simpl in *.
      destruct (Ascii.eqb c " ") eqn:Hc; [|done].
      apply Ascii.eqb_eq in Hc as ->. simpl. by apply IH. }
    rewrite fuzzy_greedy, Hl. simpl. by rewrite greedy_nil_r.
Qed.

(** X6: typing on narrows the list: when the query [q] occurs as a block in
    the longer query [q'], every record kept for [q'] was kept for [q], under
    [strict] and under [fuzzy], and the narrower list is a sublist of the
    wider one. *)
Theorem longer_query_narrows (o : TaxiOptions) (q q' : string) :
  query o = Query.strict \/ query o = Query.fuzzy ->
  substring_of q q' ->
  filtered o q' `sublist_of` filtered o q.
Proof.
  intros Hquery Hsub. unfold filtered. apply bfilter_sublist. intros r _.
  destruct Hquery as [-> | ->].
  - simpl. rewrite !includes_spec. intros H.
    eapply substring_of_trans; [|exact H]. by apply substring_of_toLowerCase.
  - rewrite !truthy_fuzzy. intros [Hne H]. split; [done|].
    unfold subsequence in *. etrans; [|exact H].
    by apply substring_of_sublist, substring_of_remove_spaces,
             substring_of_toLowerCase.
Qed.

(** * More on the handlers *)

Section HandlerFacts.

Variable parseHTML : string -> list Item.

Local Abbreviation navigate := (navigate parseHTML).
Local Abbreviation handleKeyDown := (handleKeyDown parseHTML).
Local Abbreviation handleKeyUp := (handleKeyUp parseHTML).
Local Abbreviation keypress := (keypress parseHTML).

Lemma includes_code_In codes code :
  includes_code codes code = true <-> In code codes.
Proof.
  unfold includes_code. rewrite existsb_exists. split.
  - intros (x & Hx & Heq). apply Z.eqb_eq in Heq. by subst.
  - intros H. exists code. split; [done|apply Z.eqb_refl].
Qed.

Lemma includes_code_not_In codes code :
  includes_code codes code = false <-> ~ In code codes.
Proof. rewrite <- includes_code_In. by destruct (includes_code codes code). Qed.

Lemma hasMinChar_same t t' :
  input_value t' = input_value t -> options t' = options t ->
  hasMinChar t' = hasMinChar t.
Proof. unfold hasMinChar. by intros -> ->. Qed.

Lemma toggle_child_frame t index :
  let o := toggle_child t index in
  input_value (after o) = input_value t
  /\ options (after o) = options t
  /\ defaultPrevented o = true.
Proof. unfold toggle_child. by destruct (child_at _ _). Qed.

Lemma navigate_prevented t e : defaultPrevented (navigate t e) = true.
Proof.
  unfold navigate.
  repeat (case_match; try apply toggle_child_frame); done.
Qed.

Lemma navigate_options t e : options (after (navigate t e)) = options t.
Proof.
  unfold navigate.
  repeat (case_match; try (etrans; [apply toggle_child_frame|done])); done.
Qed.

(** The navigation writes the input on enter with a selected element only. *)
Lemma navigate_input t e :
  which e <> 13 \/ querySelector (children t) = None ->
  input_value (after (navigate t e)) = input_value t.
Proof.
  intros H. unfold navigate.
  destruct (which e =? 40); [etrans; [apply toggle_child_frame|done]|].
  destruct (which e =? 38); [etrans; [apply toggle_child_frame|done]|].
  destruct (which e =? 9); [etrans; [apply toggle_child_frame|done]|].
  destruct (which e =? 13) eqn:H13; [|done].
  destruct H as [H|H]; [apply Z.eqb_eq in H13; done|]. by rewrite H.
Qed.

(** A keyup of an action code leaves alone an instance whose gate passes or
    whose display is empty. *)
Lemma handleKeyUp_action t e :
  In (which e) actionCodes ->
  hasMinChar t = true \/ children t = [] ->
  handleKeyUp t e = t.
Proof.
  intros Hcode H. unfold handleKeyUp.
  destruct (hasMinChar t) eqn:Hgate; cbn [negb].
  - apply includes_code_In in Hcode. by rewrite Hcode.
  - destruct H as [H|H]; [done|]. destruct t; simpl in *. by subst.
Qed.

End HandlerFacts.

(** * Properties of the handlers *)

Section HandlerProperties.

Variable parseHTML : string -> list Item.

Local Abbreviation navigate := (navigate parseHTML).
Local Abbreviation handleKeyDown := (handleKeyDown parseHTML).
Local Abbreviation handleKeyUp := (handleKeyUp parseHTML).
Local Abbreviation keypress := (keypress parseHTML).

(** X7: [handleKeyUp] never writes the input value or the options; and when
    the gate passes, the key is no action code and no record matches the
    input, it empties the display, whatever the parser makes of markup. *)
Theorem keyup_frame (t : Taxi) (e : Event) :
  input_value (handleKeyUp t e) = input_value t
  /\ options (handleKeyUp t e) = options t
  /\ (hasMinChar t = true -> ~ In (which e) actionCodes ->
      filtered (options t) (input_value t) = [] ->
      children (handleKeyUp t e) = []).
Proof.
  unfold handleKeyUp.
  destruct (hasMinChar t); cbn [negb]; [|by repeat split].
  destruct (includes_code actionCodes (which e)) eqn:Hc.
  - split; [done|]. split; [done|]. intros _ Hn.
    by apply includes_code_In in Hc.
  - split; [done|]. split; [done|]. by intros _ _ ->.
Qed.

(** X8: the keyup that follows the keydown of an action code changes nothing:
    a press of down, up, tab or enter leaves what its keydown left, with no
    new filter pass, whether the gate passed or not. *)
Theorem keyup_after_action_keydown (t : Taxi) (e : Event) :
  In (which e) actionCodes ->
  keypress t e = after (handleKeyDown t e).
Proof.
  intros Hcode. unfold keypress. apply handleKeyUp_action; [done|].
  destruct (hasMinChar t) eqn:Hgate.
  - rewrite handleKeyDown_navigate by done.
    destruct (decide (which e = 13 /\ querySelector (children t) <> None))
      as [[H13 Hsel]|Hno].
    + right. rewrite navigate_enter by done.
      by destruct (querySelector (children t)).
    + left. rewrite <- Hgate. apply hasMinChar_same; [|apply navigate_options].
      apply navigate_input.
      destruct (decide (which e = 13)); [|by left]. right.
      destruct (querySelector (children t)); [|done].
      exfalso. apply Hno. done.
  - right. by rewrite handleKeyDown_gate_fails.
Qed.

(** X9: [handleKeyDown] calls [e.preventDefault()] exactly when the gate
    passes and the key is one of the four action codes; every other keydown
    keeps its default action. *)
Theorem default_prevented_iff (t : Taxi) (e : Event) :
  defaultPrevented (handleKeyDown t e) = true <->
  hasMinChar t = true /\ In (which e) actionCodes.
Proof.
  unfold handleKeyDown. destruct (hasMinChar t); cbn [negb].
  - destruct (includes_code actionCodes (which e)) eqn:Hc; cbn [negb].
    + rewrite navigate_prevented. apply includes_code_In in Hc. by split.
    + apply includes_code_not_In in Hc. simpl. split; [done|]. by intros [_ ?].
  - simpl. split; [done|]. by intros [? _].
Qed.

(** X10: [handleKeyDown] never writes the options; it writes the input value
    only for enter under a passing gate with some element selected; and a key
    that is no action code, under a passing gate, leaves the instance as it
    was. *)
Theorem keydown_frame (t : Taxi) (e : Event) :
  let o := handleKeyDown t e in
  options (after o) = options t
  /\ (input_value (after o) <> input_value t ->
      which e = 13 /\ hasMinChar t = true /\ querySelector (children t) <> None)
  /\ (hasMinChar t = true -> ~ In (which e) actionCodes ->
      o = {| after := t; defaultPrevented := false; completion := Normal |}).
Proof.
  unfold handleKeyDown. destruct (hasMinChar t); cbn [negb].
  - destruct (includes_code actionCodes (which e)) eqn:Hc; cbn [negb].
    + split; [apply navigate_options|]. split.
      * intros Hin.
        destruct (decide (which e = 13)) as [H13|H13];
          [|exfalso; apply Hin, navigate_input; by left].
        split; [done|]. split; [done|]. intros Hsel.
        apply Hin, navigate_input. by right.
      * intros _ Hn. by apply includes_code_In in Hc.
    + by repeat split.
  - simpl. by repeat split.
Qed.

(** X11: up undoes down and down undoes up away from the ends: with the gate
    passed, from [Highlighted i] a down keydown then an up keydown ends in
    [Highlighted i] when [i] is not the last item, and an up keydown then a
    down keydown ends in [Highlighted i] when [i] is not the first. *)
Theorem down_up_inverse (t : Taxi) (i : nat) :
  Highlighted t i ->
  hasMinChar t = true ->
  let down := keydown 40 in
  let up := keydown 38 in
  ((i + 1 < length (children t))%nat ->
     Highlighted (after (handleKeyDown (after (handleKeyDown t down)) up)) i)
  /\ ((0 < i)%nat ->
     Highlighted (after (handleKeyDown (after (handleKeyDown t up)) down)) i).
Proof.
  intros Hi Hgate down up.
  pose proof (Highlighted_lt _ _ Hi) as Hlt.
  assert (Hne : children t <> []) by (destruct (children t); simpl in *; [lia|done]).
  assert (Hstep : forall t0 e0, hasMinChar t0 = true -> which e0 = 40 \/ which e0 = 38 ->
            hasMinChar (after (handleKeyDown t0 e0)) = true
            /\ handleKeyDown t0 e0 = navigate t0 e0).
  { intros t0 e0 Hg Hc.
    assert (Hin : In (which e0) actionCodes)
      by (destruct Hc as [-> | ->]; simpl; auto).
    rewrite handleKeyDown_navigate by done. split; [|done].
    rewrite <- Hg. apply hasMinChar_same; [|apply navigate_options].
    apply navigate_input. left. destruct Hc as [-> | ->]; done. }
  split.
  - intros Hi1.
    destruct (Hstep t down Hgate (or_introl eq_refl)) as [Hg1 Heq].
    rewrite Heq in *. clear Heq.
    destruct (next_step parseHTML t down Hne (or_introl eq_refl)) as (_ & Hh & Hl).
    rewrite (selectionIndex_Highlighted _ _ Hi), next_index_min in Hh by lia.
    set (t1 := after (navigate t down)) in *.
    destruct (Hstep t1 up Hg1 (or_intror eq_refl)) as [_ ->].
    assert (Hne1 : children t1 <> [])
      by (destruct (children t1); simpl in *; [lia|done]).
    destruct (prev_step parseHTML t1 up Hne1 eq_refl) as (_ & Hh1).
    rewrite (selectionIndex_Highlighted _ _ Hh), prev_index_max in Hh1.
    match type of Hh1 with
    | Highlighted _ ?k => replace k with i in Hh1 by lia
    end.
    exact Hh1.
  - intros Hi0.
    destruct (Hstep t up Hgate (or_intror eq_refl)) as [Hg1 Heq].
    rewrite Heq in *. clear Heq.
    destruct (prev_step parseHTML t up Hne eq_refl) as (_ & Hh).
    rewrite (selectionIndex_Highlighted _ _ Hi), prev_index_max in Hh.
    set (t1 := after (navigate t up)) in *.
    pose proof (Highlighted_lt _ _ Hh) as Hlt1.
    destruct (Hstep t1 down Hg1 (or_introl eq_refl)) as [_ ->].
    assert (Hne1 : children t1 <> [])
      by (destruct (children t1); simpl in *; [lia|done]).
    destruct (next_step parseHTML t1 down Hne1 (or_introl eq_refl)) as (_ & Hh1 & _).
    rewrite (selectionIndex_Highlighted _ _ Hh), next_index_min in Hh1 by lia.
    assert (Hlen : length (children t1) = length (children t)).
    { subst t1. rewrite navigate_prev by done.
      apply toggle_child_cleaned.
      rewrite (selectionIndex_Highlighted _ _ Hi), prev_index_max. lia. }
    match type of Hh1 with
    | Highlighted _ ?k => replace k with i in Hh1 by lia
    end.
    exact Hh1.
Qed.

End HandlerProperties.

(** * What the navigation leaves alone *)

Section Untouched.

Local Open Scope nat_scope.

Lemma contains_toggle_other token tok cl :
  token <> tok -> contains token (toggle tok cl) = contains token cl.
Proof.
  intros Hne. unfold toggle. destruct (contains tok cl); unfold contains.
  - apply bool_decide_ext. rewrite elem_of_bfilter, negb_true_iff, String.eqb_neq.
    tauto.
  - apply bool_decide_ext. rewrite elem_of_app, list_elem_of_singleton. tauto.
Qed.

Lemma same_but_marker_refl el : same_but_marker el el.
Proof. by split. Qed.

Lemma same_but_marker_trans a b c :
  same_but_marker a b -> same_but_marker b c -> same_but_marker a c.
Proof.
  intros [Hv1 Hc1] [Hv2 Hc2]. split; [congruence|].
  intros token Hne. by rewrite Hc2, Hc1.
Qed.

Lemma same_but_marker_toggle el : same_but_marker el (toggle_selected el).
Proof. split; [done|]. intros token Hne. by apply contains_toggle_other. Qed.

Lemma update_node_same r0 ch r el :
  node_at ch r = Some el ->
  exists el', node_at (update_node toggle_selected r0 ch) r = Some el'
              /\ same_but_marker el el'.
Proof.
  intros H. rewrite node_at_update, H. case_decide; simpl.
  - eexists. split; [done|apply same_but_marker_toggle].
  - eexists. split; [done|apply same_but_marker_refl].
Qed.

Lemma toggles_same L : forall ch r el,
  node_at ch r = Some el ->
  exists el', node_at (toggles ch L) r = Some el' /\ same_but_marker el el'.
Proof.
  induction L as [|r0 L IH]; intros ch r el H.
  - exists el. split; [done|apply same_but_marker_refl].
  - destruct (update_node_same r0 ch r el H) as (el1 & H1 & Hs1).
    destruct (IH _ _ _ H1) as (el2 & H2 & Hs2).
    exists el2. split; [exact H2|by eapply same_but_marker_trans].
Qed.

Lemma toggles_nodes L : forall ch k, nodes_from k (toggles ch L) = nodes_from k ch.
Proof.
  induction L as [|r L IH]; intros ch k; [done|].
  change (toggles ch (r :: L)) with (toggles (update_node toggle_selected r ch) L).
  by rewrite IH, nodes_from_update.
Qed.

Lemma toggles_snoc ch L r :
  update_node toggle_selected r (toggles ch L) = toggles ch (L ++ [r]).
Proof. unfold toggles. by rewrite foldl_app. Qed.

(** Moving the highlight is a run of marker toggles on the display. *)
Lemma navigate_toggles parseHTML t e :
  (which e = 40 \/ which e = 38 \/ which e = 9)%Z ->
  exists L, children (after (navigate parseHTML t e)) = toggles (children t) L.
Proof.
  intros Hcode.
  assert (Ht : forall index, exists L,
            children (after (toggle_child (set_children t (clean_up (children t))) index))
            = toggles (children t) L).
  { intros index. unfold toggle_child. destruct (child_at _ _).
    - eexists. cbn [after children set_children]. unfold clean_up.
      apply toggles_snoc.
    - by eexists. }
  destruct Hcode as [Hc|[Hc|Hc]].
  - rewrite navigate_next by auto. apply Ht.
  - rewrite navigate_prev by auto. apply Ht.
  - rewrite navigate_next by auto. apply Ht.
Qed.

Lemma trimStart_blank s : blank s = true -> trimStart s = EmptyString.
Proof.
  induction s as [|c s IH]; simpl; [done|].
  destruct (is_white_space c); simpl; [done|discriminate].
Qed.

Lemma trimEnd_nonempty c s :
  is_white_space c = false -> trimEnd (String c s) <> EmptyString.
Proof. intros Hc. simpl. destruct (trimEnd s); [by rewrite Hc|done]. Qed.

(** [trim] leaves nothing exactly of the strings of white space. *)
Lemma trim_empty_iff s : trim s = EmptyString <-> blank s = true.
Proof.
  unfold trim. split.
  - induction s as [|c s IH]; [done|]. simpl.
    destruct (is_white_space c) eqn:Hc; [done|].
    intros H. exfalso. revert H. by apply (trimEnd_nonempty c s).
  - intros H. by rewrite trimStart_blank.
Qed.

Lemma indexOf_from_descendant ch a b : forall k,
  indexOf_from k ch (Some (DescendantRef a b)) = (-1)%Z.
Proof. induction ch as [|it ch IH]; intros k; simpl; [done|]. apply IH. Qed.

End Untouched.

(** * The merge of the options *)

Section InjectFacts.

Context {V : Type}.
Variable accepts : V -> bool.

Implicit Types (defaults options : gmap string V) (acc : @JsObject V).

Lemma elem_of_Object_keys options key :
  key ∈ Object_keys options <-> is_Some (options !! key).
Proof.
  unfold Object_keys. rewrite list_elem_of_fmap. split.
  - intros ([k v] & -> & H). apply elem_of_map_to_list in H. by eexists.
  - intros [v H]. exists (key, v). split; [done|]. by apply elem_of_map_to_list.
Qed.

(** One assignment on an object without an own [__proto__]. *)
Lemma assign_key_step options acc k :
  own_properties acc !! proto_key = None ->
  own_properties (assign_key accepts options acc k) !! proto_key = None
  /\ (forall key,
        own_properties (assign_key accepts options acc k) !! key =
          if decide (key = k /\ key <> proto_key)
          then match options !! key with
               | Some v => Some v
               | None => own_properties acc !! key
               end
          else own_properties acc !! key)
  /\ prototype (assign_key accepts options acc k) =
       if decide (k = proto_key)
       then match options !! proto_key with
            | Some v => if accepts v then Some v else prototype acc
            | None => prototype acc
            end
       else prototype acc.
Proof.
  intros Hp. unfold assign_key, reaches_proto_setter.
  destruct (decide (k = proto_key)) as [->|Hk].
  - rewrite bool_decide_eq_true_2 by done.
    rewrite (bool_decide_eq_false_2 (is_Some _))
      by (rewrite Hp; by intros [? ?]).
    cbn [negb andb].
    assert (Hno : forall key, ~ (key = proto_key /\ key <> proto_key)) by tauto.
    destruct (options !! proto_key) as [v|]; [destruct (accepts v)|]; simpl;
      (split; [done|]); (split; [|done]); intros key;
      by rewrite decide_False by apply Hno.
  - rewrite bool_decide_eq_false_2 by done. cbn [andb].
    destruct (options !! k) as [v|] eqn:Hv; simpl.
    + split; [by rewrite lookup_insert_ne|]. split; [|done]. intros key.
      destruct (decide (key = k)) as [->|Hne].
      * rewrite decide_True by done. by rewrite lookup_insert_eq, Hv.
      * rewrite decide_False by tauto. by rewrite lookup_insert_ne.
    + split; [done|]. split; [|done]. intros key.
      case_decide as H; [|done]. destruct H as [-> _]. by rewrite Hv.
Qed.

Lemma assign_keys_spec options keys : forall acc,
  own_properties acc !! proto_key = None ->
  let r := foldl (assign_key accepts options) acc keys in
  (forall key,
     own_properties r !! key =
       if decide (key ∈ keys /\ key <> proto_key)
       then match options !! key with
            | Some v => Some v
            | None => own_properties acc !! key
            end
       else own_properties acc !! key)
  /\ prototype r =
       if decide (proto_key ∈ keys)
       then match options !! proto_key with
            | Some v => if accepts v then Some v else prototype acc
            | None => prototype acc
            end
       else prototype acc.
Proof.
  induction keys as [|k keys IH]; intros acc Hp r; subst r.
  - split; [intros key|]; rewrite decide_False; try done;
      rewrite elem_of_nil; tauto.
  - change (foldl (assign_key accepts options) acc (k :: keys))
      with (foldl (assign_key accepts options) (assign_key accepts options acc k) keys).
    destruct (assign_key_step options acc k Hp) as (Hp' & Hown & Hproto).
    destruct (IH _ Hp') as [IHown IHproto]. split.
    + intros key. rewrite IHown, Hown.
      destruct (decide (key ∈ keys /\ key <> proto_key)) as [[Hin Hne]|Hno].
      * rewrite (decide_True (P := key ∈ k :: keys /\ _))
          by (split; [by apply list_elem_of_further|done]).
        destruct (options !! key); [done|].
        destruct (decide (key = k /\ key <> proto_key)); done.
      * destruct (decide (key = k /\ key <> proto_key)) as [[-> Hne]|Hno'].
        -- rewrite decide_True; [done|]. split; [apply list_elem_of_here|done].
        -- rewrite decide_False; [done|].
           rewrite elem_of_cons. tauto.
    + rewrite IHproto, Hproto.
      destruct (decide (proto_key ∈ keys)) as [Hin|Hnin].
      * rewrite (decide_True (P := proto_key ∈ k :: keys))
          by (by apply list_elem_of_further).
        destruct (options !! proto_key) as [v|]; [|by case_decide].
        destruct (accepts v); [done|by case_decide].
      * destruct (decide (k = proto_key)) as [->|Hk].
        -- by rewrite decide_True by apply list_elem_of_here.
        -- rewrite decide_False; [done|]. rewrite elem_of_cons.
           intros [?|?]; [congruence|done].
Qed.

Lemma injectTaxiOptions_own defaults options key :
  defaults !! proto_key = None ->
  own_properties (injectTaxiOptions accepts defaults (Some options)) !! key =
    if decide (key = proto_key) then None
    else match options !! key with Some v => Some v | None => defaults !! key end.
Proof.
  intros Hp. unfold injectTaxiOptions.
  destruct (assign_keys_spec options (Object_keys options)
              {| own_properties := defaults; prototype := None |} Hp) as [Hown _].
  rewrite Hown. simpl. destruct (decide (key = proto_key)) as [->|Hne].
  - by rewrite decide_False by tauto.
  - case_decide as H; [done|].
    destruct (options !! key) eqn:Hk; [|done]. exfalso. apply H.
    split; [|done]. apply elem_of_Object_keys. by eexists.
Qed.

Lemma injectTaxiOptions_prototype defaults options :
  defaults !! proto_key = None ->
  prototype (injectTaxiOptions accepts defaults (Some options)) =
    match options !! proto_key with
    | Some v => if accepts v then Some v else None
    | None => None
    end.
Proof.
  intros Hp. unfold injectTaxiOptions.
  destruct (assign_keys_spec options (Object_keys options)
              {| own_properties := defaults; prototype := None |} Hp) as [_ Hproto].
  rewrite Hproto. simpl. case_decide as H.
  - done.
  - destruct (options !! proto_key) eqn:Hk; [|done]. exfalso. apply H.
    apply elem_of_Object_keys. by eexists.
Qed.

End InjectFacts.

(** X14: [injectTaxiOptions] is a shallow merge in which the caller wins,
    over defaults that have no [__proto__] property: an own key of the given
    options other than [__proto__] has the given value in [this.options],
    also a key the defaults do not know; every other key has its default.
    The key [__proto__] never becomes an own property: its assignment runs
    the inherited setter, which replaces the prototype of [this.options] when
    the given value is an object or null and does nothing otherwise.
    Without options, or with an empty options object, the result is the
    defaults, and merging the same options into the result again leaves its
    own properties as they are. *)
Theorem injectTaxiOptions_merge {V : Type} (accepts : V -> bool)
    (defaults options : gmap string V) :
  defaults !! proto_key = None ->
  let r := injectTaxiOptions accepts defaults (Some options) in
  own_properties r = delete proto_key options ∪ defaults
  /\ (forall key v, key <> proto_key -> options !! key = Some v ->
        own_properties r !! key = Some v)
  /\ (forall key, options !! key = None ->
        own_properties r !! key = defaults !! key)
  /\ own_properties r !! proto_key = None
  /\ prototype r =
       match options !! proto_key with
       | Some v => if accepts v then Some v else None
       | None => None
       end
  /\ (options !! proto_key = None ->
      r = {| own_properties := options ∪ defaults; prototype := None |})
  /\ injectTaxiOptions accepts defaults None
     = {| own_properties := defaults; prototype := None |}
  /\ injectTaxiOptions accepts defaults (Some ∅)
     = {| own_properties := defaults; prototype := None |}
  /\ own_properties (injectTaxiOptions accepts (own_properties r) (Some options))
     = own_properties r.
Proof.
  intros Hp r. subst r.
  assert (Hown : own_properties (injectTaxiOptions accepts defaults (Some options))
                 = delete proto_key options ∪ defaults).
  { apply map_eq. intros key. rewrite injectTaxiOptions_own by done.
    destruct (decide (key = proto_key)) as [->|Hne].
    - symmetry. apply lookup_union_None. by rewrite lookup_delete_eq.
    - destruct (options !! key) eqn:Hk.
      + symmetry. apply lookup_union_Some_l. by rewrite lookup_delete_ne.
      + symmetry. rewrite lookup_union_r; [done|]. by rewrite lookup_delete_ne. }
  assert (Hnone : own_properties (injectTaxiOptions accepts defaults (Some options))
                    !! proto_key = None)
    by (rewrite injectTaxiOptions_own by done; by rewrite decide_True).
  split; [done|]. split; [|split; [|split; [done|split; [|split; [|split; [done|split]]]]]].
  - intros key v Hne H. rewrite injectTaxiOptions_own by done.
    by rewrite decide_False, H.
  - intros key H. rewrite injectTaxiOptions_own by done.
    case_decide as Hk; [by subst|]. by rewrite H.
  - by apply injectTaxiOptions_prototype.
  - intros Hno.
    pose proof (injectTaxiOptions_prototype accepts defaults options Hp) as Hpr.
    rewrite Hno in Hpr. rewrite (delete_id _ _ Hno) in Hown.
    destruct (injectTaxiOptions accepts defaults (Some options)). simpl in *.
    by subst.
  - done.
  - apply map_eq. intros key. rewrite !injectTaxiOptions_own by done.
    case_decide; [done|]. by destruct (options !! key).
Qed.

(** * More properties of the handlers *)

Section MoreHandlerProperties.

Variable parseHTML : string -> list Item.

Local Abbreviation navigate := (navigate parseHTML).
Local Abbreviation handleKeyDown := (handleKeyDown parseHTML).
Local Abbreviation handleKeyUp := (handleKeyUp parseHTML).
Local Abbreviation onClick := (onClick parseHTML).

(** X12: with the gate passed, a down, up or tab keydown touches markers
    only: the display keeps its elements, every element keeps its [value]
    attribute and every class token other than [is-selected], also when the
    handler ends in a TypeError. *)
Theorem navigation_touches_markers_only (t : Taxi) (e : Event) :
  hasMinChar t = true ->
  which e = 40 \/ which e = 38 \/ which e = 9 ->
  let t' := after (handleKeyDown t e) in
  nodes_from 0 (children t') = nodes_from 0 (children t)
  /\ length (children t') = length (children t)
  /\ forall r el, node_at (children t) r = Some el ->
       exists el', node_at (children t') r = Some el' /\ same_but_marker el el'.
Proof.
  intros Hgate Hcode t'. subst t'.
  rewrite handleKeyDown_navigate;
    [|done|destruct Hcode as [-> |[-> | ->]]; simpl; auto].
  destruct (navigate_toggles parseHTML t e Hcode) as [L ->].
  split; [apply toggles_nodes|]. split; [apply toggles_length|].
  intros r el. apply toggles_same.
Qed.

(** X13: a click on the [i]-th rendered item does what highlighting that item
    and pressing enter does: the item's [value] attribute is assigned to the
    input, which stores it without its line feeds and carriage returns, and
    the display is emptied.  A click that lands on an element without a
    [value] attribute empties the input as well. *)
Theorem click_is_highlight_then_enter (t : Taxi) (i : nat) :
  (i < length (children t))%nat ->
  let highlighted :=
    set_children t (update_node toggle_selected (ChildRef i) (clean_up (children t))) in
  Highlighted highlighted i
  /\ onClick t (ChildRef i) = after (navigate highlighted (keydown 13))
  /\ children (onClick t (ChildRef i)) = []
  /\ (forall it, children t !! i = Some it ->
        input_value (onClick t (ChildRef i))
        = to_input_value (value_attribute (item_element it)))
  /\ (forall it v, children t !! i = Some it ->
        value_attribute (item_element it) = Some v ->
        input_value (onClick t (ChildRef i)) = strip_newlines v
        /\ (single_line v = true -> input_value (onClick t (ChildRef i)) = v))
  /\ (forall r el, node_at (children t) r = Some el ->
        value_attribute el = None ->
        input_value (onClick t r) = EmptyString /\ children (onClick t r) = []).
Proof.
  intros Hi highlighted.
  assert (Hh : Highlighted highlighted i).
  { unfold Highlighted, highlighted. simpl.
    apply querySelectorAll_toggle_child; [apply clean_up_unmarked|].
    by rewrite clean_up_length. }
  split; [done|]. split; [|split; [done|split; [|split]]].
  - rewrite navigate_enter by done.
    unfold querySelector. rewrite Hh. simpl.
    unfold onClick, set_innerHTML, set_input_value. simpl. f_equal.
    change (alter (update_item toggle_selected) i (clean_up (children t)))
      with (update_node toggle_selected (ChildRef i) (clean_up (children t))).
    by rewrite getAttribute_value_update, clean_up_getAttribute.
  - intros it Hit. unfold onClick, getAttribute_value. simpl. by rewrite Hit.
  - intros it v Hit Hv. unfold onClick, getAttribute_value. simpl.
    rewrite Hit. simpl. rewrite Hv. split; [done|].
    apply strip_newlines_single_line.
  - intros r el Hr Hv. unfold onClick, getAttribute_value. simpl.
    by rewrite Hr; simpl; rewrite Hv.
Qed.

(** X15: white space does not count towards the minimum: with a positive
    [minChar] an input of white space alone fails the gate, so a keyup or a
    keydown empties the display; with [minChar = 1] the gate passes exactly
    when the input holds something else than white space. *)
Theorem blank_input_fails_gate (t : Taxi) (e : Event) :
  0 < minChar (options t) ->
  (blank (input_value t) = true ->
     hasMinChar t = false
     /\ children (handleKeyUp t e) = []
     /\ children (after (handleKeyDown t e)) = [])
  /\ (minChar (options t) = 1 ->
      (hasMinChar t = true <-> blank (input_value t) = false)).
Proof.
  intros Hpos. split.
  - intros Hb.
    assert (Hfail : hasMinChar t = false).
    { unfold hasMinChar. apply trim_empty_iff in Hb. rewrite Hb.
      change (Z.of_nat (String.length EmptyString)) with 0.
      destruct (minChar (options t) =? 0) eqn:Hz; [lia|].
      destruct (0 >=? minChar (options t)) eqn:Hge; [lia|done]. }
    split; [done|]. split.
    + by rewrite handleKeyUp_gate_fails.
    + by rewrite handleKeyDown_gate_fails.
  - intros Hone. unfold hasMinChar. rewrite Hone.
    change (1 =? 0) with false. cbn match.
    pose proof (trim_empty_iff (input_value t)) as Ht.
    destruct (trim (input_value t)) as [|c s] eqn:Htrim.
    + split; [done|]. intros Hb. by rewrite (proj1 Ht eq_refl) in Hb.
    + assert (Hge : (Z.of_nat (String.length (String c s)) >=? 1) = true).
      { apply Z.geb_le. cbn [String.length]. lia. }
      rewrite Hge. split; [|done].
      intros _. destruct (blank (input_value t)); [|done].
      by destruct Ht as [_ Ht]; specialize (Ht eq_refl).
Qed.

(** X16: navigation recovers from any display: over a non-empty rendered
    list, with the gate passed, a down, tab or up keydown completes and leaves
    exactly one marker, on a rendered item, however many markers there were
    and wherever they sat.  A marker whose first bearer is an element below an
    item counts as no selection: down and tab then highlight item 0. *)
Theorem navigation_from_any_display (t : Taxi) (e : Event) :
  children t <> [] ->
  hasMinChar t = true ->
  which e = 40 \/ which e = 9 \/ which e = 38 ->
  let o := handleKeyDown t e in
  completion o = Normal
  /\ (exists i, Highlighted (after o) i)
  /\ (forall a b, querySelector (children t) = Some (DescendantRef a b) ->
        selectionIndex t = -1
        /\ (which e <> 38 -> Highlighted (after o) 0)).
Proof.
  intros Hne Hgate Hcode o. subst o.
  rewrite handleKeyDown_navigate;
    [|done|destruct Hcode as [-> |[-> | ->]]; simpl; auto].
  pose proof (nonempty_length _ Hne) as Hpos.
  destruct Hcode as [Hc|[Hc|Hc]].
  - destruct (next_step parseHTML t e Hne (or_introl Hc)) as (Hn & Hh & _).
    split; [done|]. split; [eauto|]. intros a b Hsel.
    assert (Hidx : selectionIndex t = -1)
      by (unfold selectionIndex; rewrite Hsel; apply indexOf_from_descendant).
    split; [done|]. intros _. rewrite Hidx, next_index_min in Hh by lia.
    by replace (Z.to_nat (Z.min (-1 + 1) (Z.of_nat (length (children t)) - 1)))
      with 0%nat in Hh by lia.
  - destruct (next_step parseHTML t e Hne (or_intror Hc)) as (Hn & Hh & _).
    split; [done|]. split; [eauto|]. intros a b Hsel.
    assert (Hidx : selectionIndex t = -1)
      by (unfold selectionIndex; rewrite Hsel; apply indexOf_from_descendant).
    split; [done|]. intros _. rewrite Hidx, next_index_min in Hh by lia.
    by replace (Z.to_nat (Z.min (-1 + 1) (Z.of_nat (length (children t)) - 1)))
      with 0%nat in Hh by lia.
  - destruct (prev_step parseHTML t e Hne Hc) as (Hn & Hh).
    split; [done|]. split; [eauto|]. intros a b Hsel. split; [|done].
    unfold selectionIndex. rewrite Hsel. apply indexOf_from_descendant.
Qed.

(** X17: the two [handleKeyDown] agree wherever the class source's
    [KeyHandler] knows the four action codes and navigates as the dist build
    does: on every action code, and on every key under a passing gate, they
    leave the same instance, completion and default prevention.  They part on
    a key that is no action code under a failing gate: the dist build empties
    the display, the class source returns at once. *)
Theorem class_handler_agrees (has : Z -> bool) (handle : Taxi -> Event -> Outcome)
    (t : Taxi) (e : Event) :
  (forall code, has code = includes_code actionCodes code) ->
  (forall t0 e0, handle t0 e0 = navigate t0 e0) ->
  let o := handleKeyDown t e in
  let o' := handleKeyDown_class parseHTML has handle t e in
  (In (which e) actionCodes \/ hasMinChar t = true -> o' = o)
  /\ (~ In (which e) actionCodes -> hasMinChar t = false ->
      after o' = t /\ children (after o) = []).
Proof.
  intros Hhas Hhandle o o'. subst o o'.
  unfold handleKeyDown_class, handleKeyDown. rewrite Hhas, Hhandle.
  destruct (includes_code actionCodes (which e)) eqn:Hc;
    destruct (hasMinChar t) eqn:Hg; cbn [negb]; split.
  - intros _. pose proof (navigate_prevented parseHTML t e) as Hp.
    destruct (navigate t e). simpl in *. by subst.
  - done.
  - done.
  - intros Hn. by apply includes_code_In in Hc.
  - done.
  - done.
  - apply includes_code_not_In in Hc. intros [?|?]; done.
  - done.
Qed.

(** X18: after a commit the list is gone, and the handler does not guard
    against that: when enter has committed a highlighted item and the
    committed value passes the gate, the next down, tab or up keydown ends in
    a TypeError. *)
Theorem navigation_after_commit (t : Taxi) (i : nat) (e : Event) :
  Highlighted t i ->
  hasMinChar t = true ->
  which e = 40 \/ which e = 9 \/ which e = 38 ->
  let committed := after (handleKeyDown t (keydown 13)) in
  children committed = []
  /\ (hasMinChar committed = true ->
      completion (handleKeyDown committed e) = TypeError).
Proof.
  intros Hi Hgate Hcode committed.
  assert (Hc : children committed = []).
  { subst committed. rewrite handleKeyDown_navigate by (simpl; auto).
    rewrite navigate_enter by done. unfold querySelector. by rewrite Hi. }
  split; [done|]. intros Hg.
  rewrite handleKeyDown_navigate;
    [|done|destruct Hcode as [-> |[-> | ->]]; simpl; auto].
  destruct Hcode as [Hcode|[Hcode|Hcode]].
  - rewrite navigate_next by auto. by rewrite toggle_child_empty.
  - rewrite navigate_next by auto. by rewrite toggle_child_empty.
  - rewrite navigate_prev by auto. by rewrite toggle_child_empty.
Qed.

End MoreHandlerProperties.

(** * The further properties at work *)

Lemma strict_implies_fuzzy_witness :
  Query.fuzzy "Mercedes" "ced" = JsString "Mercedes"
  /\ "Mercedes" ∈ filtered SampleOptions.fuzzy "ced".
Proof.
  destruct (strict_implies_fuzzy SampleOptions.strict SampleOptions.fuzzy "ced"
              eq_refl eq_refl eq_refl) as [H1 H2].
  split; [by apply H1|].
  apply H2; [|done]. apply list_elem_of_In. vm_compute. auto.
Defined.

Lemma matching_ignores_case_witness :
  Query.strict "Mercedes" "CED" = Query.strict "MERCEDES" "ced".
Proof.
  by destruct (matching_ignores_case "Mercedes" "MERCEDES" "CED" "ced"
                 eq_refl eq_refl) as [H _].
Defined.

Lemma own_text_matches_witness :
  "Daimler" ∈ filtered SampleOptions.strict "Daimler"
  /\ "Daimler" ∈ filtered SampleOptions.fuzzy "Daimler".
Proof.
  assert (Hin : "Daimler" ∈ data SampleOptions.fuzzy)
    by (apply list_elem_of_In; simpl; auto).
  split.
  - destruct (own_text_matches SampleOptions.strict "Daimler" Hin) as [H _].
    by apply H.
  - destruct (own_text_matches SampleOptions.fuzzy "Daimler" Hin) as [_ H].
    by apply H.
Defined.

Lemma filtered_fuzzy_witness :
  (EmptyString ∉ filtered SampleOptions.fuzzy "  ")
  /\ filtered SampleOptions.fuzzy "  " = ["Volkwagen"; "Mercedes"; "Daimler"].
Proof.
  destruct (filtered_fuzzy SampleOptions.fuzzy "  " eq_refl) as (_ & H & _).
  split; [exact H|reflexivity].
Defined.

Lemma empty_query_lists_all_witness :
  filtered SampleOptions.strict EmptyString = data SampleOptions.strict
  /\ filtered SampleOptions.fuzzy "  " = ["Volkwagen"; "Mercedes"; "Daimler"].
Proof.
  split.
  - destruct (empty_query_lists_all SampleOptions.strict "  " eq_refl) as [H _].
    by apply H.
  - destruct (empty_query_lists_all SampleOptions.fuzzy "  " eq_refl) as [_ H].
    by rewrite H.
Defined.

Lemma longer_query_narrows_witness :
  filtered SampleOptions.strict "er" `sublist_of` filtered SampleOptions.strict "e"
  /\ filtered SampleOptions.fuzzy "er" `sublist_of` filtered SampleOptions.fuzzy "e".
Proof.
  assert (Hsub : substring_of "e" "er") by (by exists EmptyString, "r").
  split.
  - apply (longer_query_narrows SampleOptions.strict "e" "er"); [by left|done].
  - apply (longer_query_narrows SampleOptions.fuzzy "e" "er"); [by right|done].
Defined.

Lemma keyup_frame_witness :
  input_value (handleKeyUp Sample.parse Sample.rendered (keydown 88)) = "e"
  /\ children (handleKeyUp Sample.parse
                 (set_input_value Sample.rendered (Some "xyz")) (keydown 90)) = [].
Proof.
  split.
  - by destruct (keyup_frame Sample.parse Sample.rendered (keydown 88)) as (H & _).
  - destruct (keyup_frame Sample.parse
                (set_input_value Sample.rendered (Some "xyz")) (keydown 90))
      as (_ & _ & H).
    apply H; [reflexivity| |reflexivity].
    simpl. intros [H'|[H'|[H'|[H'|[]]]]]; discriminate H'.
Defined.

Lemma keyup_after_action_keydown_witness :
  keypress Sample.parse (Sample.selected 1) (keydown 13)
  = after (handleKeyDown Sample.parse (Sample.selected 1) (keydown 13)).
Proof.
  apply (keyup_after_action_keydown Sample.parse (Sample.selected 1) (keydown 13)).
  simpl. auto.
Defined.

Lemma default_prevented_iff_witness :
  defaultPrevented (handleKeyDown Sample.parse Sample.rendered (keydown 9)) = true.
Proof.
  apply (default_prevented_iff Sample.parse Sample.rendered (keydown 9)).
  split; [reflexivity|simpl; auto].
Defined.

Lemma keydown_frame_witness :
  handleKeyDown Sample.parse Sample.rendered (keydown 65)
  = {| after := Sample.rendered; defaultPrevented := false; completion := Normal |}.
Proof.
  destruct (keydown_frame Sample.parse Sample.rendered (keydown 65)) as (_ & _ & H).
  apply H; [reflexivity|].
  simpl. intros [H'|[H'|[H'|[H'|[]]]]]; discriminate H'.
Defined.

Lemma down_up_inverse_witness :
  Highlighted
    (after (handleKeyDown Sample.parse
              (after (handleKeyDown Sample.parse (Sample.selected 1) (keydown 40)))
              (keydown 38))) 1.
Proof.
  destruct (down_up_inverse Sample.parse (Sample.selected 1) 1) as [H _];
    [reflexivity|reflexivity|].
  apply H. simpl. lia.
Defined.

Lemma navigation_touches_markers_only_witness :
  length (children (after (handleKeyDown Sample.parse
                             SampleDisplays.stray_markers (keydown 40)))) = 3%nat.
Proof.
  destruct (navigation_touches_markers_only Sample.parse
              SampleDisplays.stray_markers (keydown 40))
    as (_ & H & _); [reflexivity|by left|exact H].
Defined.

Lemma click_is_highlight_then_enter_witness :
  input_value (onClick Sample.parse Sample.rendered (ChildRef 2)) = "Daimler"
  /\ input_value (onClick Sample.parse SampleDisplays.two_lines_selected (ChildRef 0)) = "ab"
  /\ input_value (onClick Sample.parse Sample.rendered (DescendantRef 2 0)) = EmptyString.
Proof.
  split; [|split].
  - destruct (click_is_highlight_then_enter Sample.parse Sample.rendered 2)
      as (_ & _ & _ & _ & H & _); [simpl; lia|].
    destruct (H _ "Daimler" eq_refl eq_refl) as [_ Hs]. by apply Hs.
  - destruct (click_is_highlight_then_enter Sample.parse
                SampleDisplays.two_lines_selected 0)
      as (_ & _ & _ & _ & H & _); [simpl; lia|].
    destruct (H _ SampleDisplays.two_lines eq_refl eq_refl) as [Hs _].
    by rewrite Hs.
  - destruct (click_is_highlight_then_enter Sample.parse Sample.rendered 2)
      as (_ & _ & _ & _ & _ & H); [simpl; lia|].
    by destruct (H (DescendantRef 2 0) _ eq_refl eq_refl) as [H' _].
Defined.

Lemma injectTaxiOptions_merge_witness :
  let r := injectTaxiOptions SampleOptions.is_obj SampleOptions.defaults
             (Some SampleOptions.with_proto) in
  own_properties r !! "minChar" = Some (SampleOptions.Num 3)
  /\ own_properties r !! "showWarnings" = Some (SampleOptions.Num 1)
  /\ own_properties r !! "devOps" = Some (SampleOptions.Num 0)
  /\ own_properties r !! proto_key = None
  /\ prototype r = Some (SampleOptions.Obj "other").
Proof.
  destruct (injectTaxiOptions_merge SampleOptions.is_obj SampleOptions.defaults
              SampleOptions.with_proto eq_refl) as (_ & H1 & H2 & H3 & H4 & _).
  simpl. split; [|split; [|split; [|split]]].
  - by apply H1.
  - by rewrite H2.
  - by apply H1.
  - exact H3.
  - exact H4.
Defined.

Lemma blank_input_fails_gate_witness :
  hasMinChar SampleDisplays.blank_input = false
  /\ children (handleKeyUp Sample.parse SampleDisplays.blank_input (keydown 32)) = [].
Proof.
  destruct (blank_input_fails_gate Sample.parse SampleDisplays.blank_input (keydown 32))
    as [H _]; [reflexivity|].
  destruct (H eq_refl) as (H1 & H2 & _). by split.
Defined.

Lemma navigation_from_any_display_witness :
  selectionIndex SampleDisplays.stray_markers = -1
  /\ Highlighted (after (handleKeyDown Sample.parse
                           SampleDisplays.stray_markers (keydown 40))) 0.
Proof.
  destruct (navigation_from_any_display Sample.parse
              SampleDisplays.stray_markers (keydown 40))
    as (_ & _ & H); [discriminate|reflexivity|by left|].
  destruct (H 1%nat 0%nat eq_refl) as [H1 H2]. split; [exact H1|].
  apply H2. discriminate.
Defined.

Lemma class_handler_agrees_witness :
  handleKeyDown_class Sample.parse (includes_code actionCodes)
    (navigate Sample.parse) Sample.rendered (keydown 40)
  = handleKeyDown Sample.parse Sample.rendered (keydown 40)
  /\ after (handleKeyDown_class Sample.parse (includes_code actionCodes)
              (navigate Sample.parse) Sample.short (keydown 65)) = Sample.short
  /\ children (after (handleKeyDown Sample.parse Sample.short (keydown 65))) = [].
Proof.
  split.
  - destruct (class_handler_agrees Sample.parse (includes_code actionCodes)
                (navigate Sample.parse) Sample.rendered (keydown 40)) as [H _];
      [done|done|].
    apply H. by right.
  - destruct (class_handler_agrees Sample.parse (includes_code actionCodes)
                (navigate Sample.parse) Sample.short (keydown 65)) as [_ H];
      [done|done|].
    apply H; [|reflexivity].
    simpl. intros [H'|[H'|[H'|[H'|[]]]]]; discriminate H'.
Defined.

Lemma navigation_after_commit_witness :
  input_value (after (handleKeyDown Sample.parse (Sample.selected 1) (keydown 13)))
  = "Mercedes"
  /\ completion
       (handleKeyDown Sample.parse
          (after (handleKeyDown Sample.parse (Sample.selected 1) (keydown 13)))
          (keydown 40)) = TypeError.
Proof.
  split; [reflexivity|].
  destruct (navigation_after_commit Sample.parse (Sample.selected 1) 1 (keydown 40))
    as [_ H]; [reflexivity|reflexivity|by left|].
  apply H. reflexivity.
Defined.
